(** * The feed-to-timeline bot: deduplication and catch-up logic

    A shallow embedding of the three generations of the bot's [main]
    function that the repository keeps side by side:

    - [IndexJs]: [src/index.js], deduplication by a bounded history of
      links;
    - [LastLink]: [src/unnamed/part_000] and [part_001], deduplication by
      the position of the last published link in the feed;
    - [TimeMark]: the script embedded in [src/README.md], deduplication
      by the timestamp of the last published entry.

    Network calls are replaced by their results: the feed is the list of
    parsed entries, and the success of each call of [postToBluesky] is
    read from an oracle indexed by the position of the call. *)

From Stdlib Require Import String Ascii.
From Stdlib Require Import List ZArith NArith Bool Arith Lia.
From Stdlib Require Import Sorted Permutation.
Import ListNotations.
Open Scope list_scope.

Set Implicit Arguments.

(** ** JavaScript values *)

(** A JavaScript string is a sequence of UTF-16 code units. *)
Definition JsString : Type := list N.

(** Literals of the source, written with one code unit per character. *)
Definition js (s : string) : JsString :=
  map N_of_ascii (list_ascii_of_string s).

Fixpoint str_eqb (a b : JsString) : bool :=
  match a, b with
  | [], [] => true
  | x :: a', y :: b' => N.eqb x y && str_eqb a' b'
  | _, _ => false
  end.

(** A property that holds a string or is absent ([None] is [undefined]). *)
Definition JsProp : Type := option JsString.

(** Truthiness, as read by [&&], [?:] and [if]: [undefined] and the
    empty string are falsy. *)
Definition truthy (v : JsProp) : bool :=
  match v with
  | Some (_ :: _) => true
  | _ => false
  end.

(** [a === b] on such properties. *)
Definition strict_eq (a b : JsProp) : bool :=
  match a, b with
  | None, None => true
  | Some x, Some y => str_eqb x y
  | _, _ => false
  end.

(** [s.startsWith(pat)] and [s.includes(pat)]. *)
Fixpoint starts_with (pat s : JsString) : bool :=
  match pat, s with
  | [], _ => true
  | p :: pat', c :: s' => N.eqb p c && starts_with pat' s'
  | _ :: _, [] => false
  end.

Fixpoint includes (s pat : JsString) : bool :=
  starts_with pat s ||
  match s with
  | [] => false
  | _ :: s' => includes s' pat
  end.

(** [s.substring(0, n)]. *)
Definition substring0 (n : nat) (s : JsString) : JsString := firstn n s.

(** [l.slice(-n)]: the last [n] elements, the whole array when it is
    shorter. *)
Definition slice_last (A : Type) (n : nat) (l : list A) : list A :=
  skipn (length l - n) l.

(** [l.slice(0, n)]. *)
Definition slice0 (A : Type) (n : nat) (l : list A) : list A := firstn n l.

(** ** Feed entries *)

(** An entry as rss-parser returns it. [isoDate] is present exactly when
    the entry's publication date could be parsed; [Some t] stands for the
    ISO string of the instant [t] (milliseconds since the epoch), so that
    [new Date(item.isoDate)] is [t], and an invalid date when absent. *)
Record Item : Type := mkItem {
  title : JsProp;
  link : JsProp;
  isoDate : option Z;
  contentSnippet : JsProp
}.

(** The link of an entry whose [link] is known to be a string. *)
Definition link_text (i : Item) : JsString :=
  match link i with
  | Some s => s
  | None => []
  end.

(** ** [Array.prototype.sort] *)

(** A comparison function returns a number; [None] is [NaN]. *)
Definition Comparator (A : Type) : Type := A -> A -> option Z.

(** ECMAScript's SortCompare reads a [NaN] result as [+0]. *)
Definition SortCompare (A : Type) (cmp : Comparator A) (x y : A) : Z :=
  match cmp x y with
  | Some v => v
  | None => 0
  end.

(** The sort is stable. It is modelled as the insertion sort that moves
    each element left past the elements that compare greater; [place]
    works on the sorted prefix held in reverse. For a consistent
    comparison function every stable sort returns this same array: the
    sorted permutation that keeps equal keys in their order. When [NaN]
    is among the results the function is not consistent and ECMAScript
    leaves the order to the implementation; the model then leaves an
    element where it is as soon as the comparison with its left
    neighbour is read as 0. An engine may order such an array
    differently (V8 looks for a sorted run and then inserts by binary
    search), so the order the model gives to an array that holds
    undated entries is not the order of every engine; the statements
    below that speak of order assume dated entries, or take an array on
    which no comparison decides anything but those read as 0. *)
Fixpoint place (A : Type) (cmp : Comparator A) (x : A) (racc : list A) : list A :=
  match racc with
  | [] => [x]
  | y :: r => if (0 <? SortCompare cmp y x)%Z then y :: place cmp x r else x :: racc
  end.

Definition array_sort (A : Type) (cmp : Comparator A) (l : list A) : list A :=
  rev (fold_left (fun racc x => place cmp x racc) l []).

(** [(a, b) => new Date(a.isoDate) - new Date(b.isoDate)] *)
Definition oldest_first : Comparator Item :=
  fun a b =>
    match isoDate a, isoDate b with
    | Some ta, Some tb => Some (ta - tb)%Z
    | _, _ => None
    end.

(** [(a, b) => new Date(b.isoDate) - new Date(a.isoDate)] *)
Definition newest_first : Comparator Item :=
  fun a b => oldest_first b a.

(** [a] is no more recent than [b]; both carry a timestamp. *)
Definition no_later (a b : Item) : Prop :=
  match isoDate a, isoDate b with
  | Some ta, Some tb => (ta <= tb)%Z
  | _, _ => False
  end.

(** [item.title.includes(pat)], reached only when the title is truthy. *)
Definition title_includes (t : JsProp) (pat : JsString) : bool :=
  match t with
  | Some s => includes s pat
  | None => false
  end.

(** [l.findIndex(p)]; [None] is [-1]. *)
Fixpoint findIndex (A : Type) (p : A -> bool) (l : list A) : option nat :=
  match l with
  | [] => None
  | x :: l' => if p x then Some 0 else option_map S (findIndex p l')
  end.

(** ** The post payload *)

Record Embed : Type := mkEmbed {
  uri : JsProp;
  embed_title : JsString;
  description : JsString
}.

(** The code units removed by [String.prototype.trim]: WhiteSpace and
    LineTerminator. *)
Definition is_space (c : N) : bool :=
  existsb (N.eqb c)
    [9; 10; 11; 12; 13; 32; 160; 5760; 8232; 8233; 8239; 8287; 12288; 65279]%N
  || (N.leb 8192 c && N.leb c 8202).

Fixpoint trim_start (s : JsString) : JsString :=
  match s with
  | c :: s' => if is_space c then trim_start s' else s
  | [] => []
  end.

Definition trim (s : JsString) : JsString :=
  rev (trim_start (rev (trim_start s))).

(** ** The state file *)

(** The parsed content of [state.json], restricted to the properties the
    scripts read. [history] is [Some h] when [Array.isArray(state.history)];
    [last_time] is [Some t] when the property holds the ISO string of the
    instant [t]. *)
Record RawState : Type := mkRaw {
  history : option (list JsString);
  last_link : JsProp;
  last_time : option Z
}.

(** [Unparsable]: the file exists and reading its properties throws. *)
Inductive StateFile : Type :=
| Missing
| Unparsable
| Parsed (s : RawState).

(** A file in the single-link shape that holds the link [l] alone. *)
Definition legacy_file (l : JsString) : StateFile :=
  Parsed {| history := None; last_link := Some l; last_time := None |}.

(** ** [src/index.js] *)

Module IndexJs.

(** The title fragment of the subscription advertisement,
    "Abone olmak i.in"; its c with a cedilla is the code unit 231. *)
Definition marker : JsString := js "Abone olmak i" ++ [231%N] ++ js "in".

(** Step 3, "Load History". *)
Definition load_history (f : StateFile) : list JsString :=
  match f with
  | Parsed s =>
      match history s with
      | Some h => h
      | None =>
          match last_link s with
          | Some (c :: l) => [c :: l]
          | _ => []
          end
      end
  | Missing | Unparsable => []
  end.

(** [JSON.stringify({ history: postedHistory })] written to the file. *)
Definition save (postedHistory : list JsString) : StateFile :=
  Parsed {| history := Some postedHistory; last_link := None; last_time := None |}.

(** Step 4, first filter. *)
Definition allValidItems (items : list Item) : list Item :=
  filter (fun item =>
            truthy (link item) && truthy (title item)
            && negb (title_includes (title item) marker))
         items.

(** [postedHistory.includes(item.link)]; the history holds strings. *)
Definition history_includes (postedHistory : list JsString) (v : JsProp) : bool :=
  match v with
  | Some s => existsb (str_eqb s) postedHistory
  | None => false
  end.

(** Step 4, second filter. *)
Definition not_posted (postedHistory : list JsString) (valid : list Item) : list Item :=
  filter (fun item => negb (history_includes postedHistory (link item))) valid.

(** The first-run safety: returns the history and the entries to post.
    [[newItems[0]]] is read when the array has more than 5 elements, so
    the empty case of the [match] is never reached. *)
Definition first_run_cap (postedHistory : list JsString) (newItems : list Item)
  : list JsString * list Item :=
  if (length postedHistory =? 0) && (5 <? length newItems)
  then (map link_text newItems,
        match newItems with
        | i :: _ => [i]
        | [] => []
        end)
  else (postedHistory, newItems).

Definition select (items : list Item) (postedHistory : list JsString)
  : list JsString * list Item :=
  first_run_cap postedHistory (not_posted postedHistory (allValidItems items)).

(** The state of a run: what reached the timeline, the array
    [postedHistory], and the content of [state.json]. *)
Record Run : Type := mkRun {
  posted : list Item;
  memory : list JsString;
  disk : StateFile
}.

(** The two statements after a successful post: push, then keep the
    last 100. *)
Definition remember (item : Item) (postedHistory : list JsString) : list JsString :=
  let h := postedHistory ++ [link_text item] in
  if 100 <? length h then slice_last 100 h else h.

(** Step 6. [ok k] tells whether the [k]-th call of [postToBluesky]
    of the run returns; when it throws, the [catch] logs and the loop
    goes on. *)
Fixpoint post_loop (ok : nat -> bool) (k : nat) (newItems : list Item) (st : Run) : Run :=
  match newItems with
  | [] => st
  | item :: rest =>
      post_loop ok (S k) rest
        (if ok k
         then let h := remember item (memory st) in
              {| posted := posted st ++ [item]; memory := h; disk := save h |}
         else st)
  end.

(** The publish plan: [newItems] as the post loop receives it. *)
Definition plan (items : list Item) (file : StateFile) : list Item :=
  array_sort oldest_first (snd (select items (load_history file))).

(** [main], after login and feed download. *)
Definition main (ok : nat -> bool) (items : list Item) (file : StateFile) : Run :=
  let (postedHistory, newItems) := select items (load_history file) in
  let start := {| posted := []; memory := postedHistory; disk := file |} in
  match newItems with
  | [] => start
  | _ :: _ => post_loop ok 0 (array_sort oldest_first newItems) start
  end.

(** One turn of the loop of step 6, for the entry [item] and the call
    number [k]: the body of the [for]. The file is written inside the
    turn, right after the push. *)
Definition iteration (ok : nat -> bool) (k : nat) (item : Item) (st : Run) : Run :=
  if ok k
  then let h := remember item (memory st) in
       {| posted := posted st ++ [item]; memory := h; disk := save h |}
  else st.

(** The state of the run once the loop has made its first [n] turns
    (all of them when the array is shorter), the first call being call
    number [k]: what a process stopped between two turns leaves. *)
Fixpoint turns (ok : nat -> bool) (n k : nat) (newItems : list Item) (st : Run) : Run :=
  match n, newItems with
  | S n', item :: rest => turns ok n' (S k) rest (iteration ok k item st)
  | _, _ => st
  end.

(** [postToBluesky]: the description of the link card. *)
Definition desc (item : Item) : JsString :=
  match contentSnippet item with
  | Some (c :: s) => substring0 250 (c :: s) ++ js "..."
  | _ => []
  end.

(** [postToBluesky]: the link card. Reading [item.title.trim()] throws
    when the title is absent. *)
Definition embed (item : Item) : option Embed :=
  match title item with
  | Some t =>
      Some {| uri := link item; embed_title := trim t; description := desc item |}
  | None => None
  end.

(** *** The preview image and the requests of [postToBluesky] *)

(** A blob reference, as [agent.uploadBlob] returns it. *)
Definition Blob : Type := N.

(** What the network answers during a call of [postToBluesky]:
    - [page url] is the [content] attribute of the [og:image] meta tag
      of the page ([Some None] when the page has none), and [None] when
      fetching or reading the page throws;
    - [picture url] is the byte length of the image and its
      [content-type] header, and [None] when the download throws;
    - [store size encoding] is the blob that [agent.uploadBlob] returns,
      and [None] when it throws;
    - [facets text] tells whether [rt.detectFacets] returns;
    - [publish card thumb] tells whether [agent.post] returns. *)
Record Web : Type := mkWeb {
  page : JsProp -> option JsProp;
  picture : JsString -> option (N * JsProp);
  store : N -> JsString -> option Blob;
  facets : JsString -> bool;
  publish : Embed -> option Blob -> bool
}.

(** The requests a call sends out, in order. *)
Inductive Request : Type :=
| GetPage (url : JsProp)
| GetImage (url : JsString)
| Upload (size : N) (encoding : JsString)
| Post (card : Embed) (thumb : option Blob).

(** [imageResponse.headers.get("content-type") || "image/jpeg"] *)
Definition encoding_of (contentType : JsProp) : JsString :=
  match contentType with
  | Some (c :: s) => c :: s
  | _ => js "image/jpeg"
  end.

(** The [try] block that scrapes the image: the requests made and the
    value of [imageBlob] after it. Whatever throws is caught. *)
Definition fetch_image (w : Web) (url : JsProp) : list Request * option Blob :=
  match page w url with
  | None => ([GetPage url], None)
  | Some (Some (c :: u)) =>
      match picture w (c :: u) with
      | None => ([GetPage url; GetImage (c :: u)], None)
      | Some (byteLength, contentType) =>
          if (byteLength <? 950000)%N
          then ([GetPage url; GetImage (c :: u);
                 Upload byteLength (encoding_of contentType)],
                store w byteLength (encoding_of contentType))
          else ([GetPage url; GetImage (c :: u)], None)
      end
  | Some _ => ([GetPage url], None)
  end.

(** [postToBluesky]: the requests made, and whether the call returns
    ([false] when it throws). *)
Definition postToBluesky (w : Web) (item : Item) : list Request * bool :=
  match embed item with
  | None => ([], false)
  | Some card =>
      let (requests, imageBlob) := fetch_image w (link item) in
      if facets w (embed_title card)
      then (requests ++ [Post card imageBlob], publish w card imageBlob)
      else (requests, false)
  end.

End IndexJs.

(** ** [src/unnamed/part_000] and [part_001] *)

Module LastLink.

(** "Read State": [lastPostedLink] starts as the empty string and takes
    whatever [state.last_link] holds when the file parses. *)
Definition load_last_link (f : StateFile) : JsProp :=
  match f with
  | Parsed s => last_link s
  | Missing | Unparsable => Some []
  end.

(** The catch-up logic. The result [None] is the early [return]; an
    element [None] of the array is [undefined], which is what
    [feed.items[0]] gives on an empty feed. *)
Definition catch_up (items : list Item) (lastPostedLink : JsProp)
  : option (list (option Item)) :=
  match findIndex (fun item => strict_eq (link item) lastPostedLink) items with
  | None =>
      if strict_eq lastPostedLink (Some [])
      then Some [nth_error items 0]
      else Some (map Some (slice0 3 items))
  | Some 0 => None
  | Some lastIndex => Some (map Some (slice0 lastIndex items))
  end.

(** [newItems] after [newItems.reverse()]. *)
Definition plan (items : list Item) (file : StateFile) : option (list (option Item)) :=
  option_map (@rev (option Item)) (catch_up items (load_last_link file)).

(** The outcome of [main]: what reached the timeline, the content of
    [state.json], and whether [main] returned ([false] when it threw). *)
Record Run : Type := mkRun {
  posted : list Item;
  disk : StateFile;
  completed : bool
}.

(** The post loop has no [try]: the first call that throws ends it.
    Returns the entries published and whether the loop ran to its end.
    On [undefined], reading [item.title] throws. *)
Fixpoint post_loop (ok : nat -> bool) (k : nat) (newItems : list (option Item))
  : list Item * bool :=
  match newItems with
  | [] => ([], true)
  | None :: _ => ([], false)
  | Some item :: rest =>
      if ok k
      then let (p, c) := post_loop ok (S k) rest in (item :: p, c)
      else ([], false)
  end.

(** "Save new state": [{ last_link: feed.items[0].link }]; reading
    [feed.items[0].link] throws on an empty feed. *)
Definition save (items : list Item) : option StateFile :=
  match items with
  | [] => None
  | first :: _ =>
      Some (Parsed {| history := None; last_link := link first; last_time := None |})
  end.

(** [main], after login and feed download. *)
Definition main (ok : nat -> bool) (items : list Item) (file : StateFile) : Run :=
  match plan items file with
  | None => {| posted := []; disk := file; completed := true |}
  | Some newItems =>
      let (p, c) := post_loop ok 0 newItems in
      if c
      then match save items with
           | Some f => {| posted := p; disk := f; completed := true |}
           | None => {| posted := p; disk := file; completed := false |}
           end
      else {| posted := p; disk := file; completed := false |}
  end.

End LastLink.

(** ** The script embedded in [src/README.md] *)

Module TimeMark.

(** The advertisement fragment as this copy of the script spells it: the
    code units 195 and 167 stand where the c with a cedilla should be. *)
Definition marker : JsString := js "Abone olmak i" ++ [195%N; 167%N] ++ js "in".

Definition has_date (item : Item) : bool :=
  match isoDate item with
  | Some _ => true
  | None => false
  end.

(** Steps 2 and 3: filter, then sort newest first. *)
Definition allItems (items : list Item) : list Item :=
  array_sort newest_first
    (filter (fun item =>
               truthy (title item) && truthy (link item) && has_date item
               && negb (title_includes (title item) marker))
            items).

(** Step 4, "Load State": the value of [lastPostedTime]; [None] is [NaN]. *)
Definition load_time (f : StateFile) (all : list Item) : option Z :=
  match f with
  | Parsed s =>
      match last_time s with
      | Some t => Some t
      | None =>
          if truthy (last_link s)
          then match find (fun i => strict_eq (link i) (last_link s)) all with
               | Some foundItem => isoDate foundItem
               | None => Some 0%Z
               end
          else Some 0%Z
      end
  | Missing | Unparsable => Some 0%Z
  end.

(** [itemTime > lastPostedTime], false when either side is [NaN]. *)
Definition newer_than (lastPostedTime : option Z) (item : Item) : bool :=
  match isoDate item, lastPostedTime with
  | Some t, Some t0 => (t0 <? t)%Z
  | _, _ => false
  end.

(** Steps 5 and 6. An element [None] is [undefined] ([allItems[0]] of an
    empty array). *)
Definition select (all : list Item) (lastPostedTime : option Z) : list (option Item) :=
  match lastPostedTime with
  | Some 0%Z => [nth_error all 0]
  | _ => map Some (array_sort oldest_first (filter (newer_than lastPostedTime) all))
  end.

Definition plan (items : list Item) (file : StateFile) : list (option Item) :=
  select (allItems items) (load_time file (allItems items)).

(** The state written after a successful post:
    [{ last_link: item.link, last_time: item.isoDate }]. *)
Definition save (item : Item) : StateFile :=
  Parsed {| history := None; last_link := link item; last_time := isoDate item |}.

(** The outcome of [main]: what reached the timeline, the content of
    [state.json], and whether an exception left [main]. *)
Record Run : Type := mkRun {
  posted : list Item;
  disk : StateFile;
  crashed : bool
}.

(** Step 7. A call that throws is caught and logged with [item.title];
    on [undefined] the logging itself throws, out of the loop. *)
Fixpoint post_loop (ok : nat -> bool) (k : nat) (newItems : list (option Item))
  (st : Run) : Run :=
  match newItems with
  | [] => st
  | None :: _ => {| posted := posted st; disk := disk st; crashed := true |}
  | Some item :: rest =>
      post_loop ok (S k) rest
        (if ok k
         then {| posted := posted st ++ [item]; disk := save item; crashed := false |}
         else st)
  end.

(** [main], after login and feed download. *)
Definition main (ok : nat -> bool) (items : list Item) (file : StateFile) : Run :=
  post_loop ok 0 (plan items file) {| posted := []; disk := file; crashed := false |}.

End TimeMark.

(** ** The first script of the repository, kept last in [src/README.md] *)

Module Latest.

(** The outcome of [main]: what reached the timeline, the content of
    [state.json], and whether [main] returned. *)
Record Run : Type := mkRun {
  posted : list Item;
  disk : StateFile;
  completed : bool
}.

(** [main], after login and feed download: only the first entry of the
    feed is looked at. [ok] tells whether preparing and sending the post
    returns; the state is written after it. *)
Definition main (ok : bool) (items : list Item) (file : StateFile) : Run :=
  match items with
  | [] => {| posted := []; disk := file; completed := true |}
  | latestItem :: _ =>
      if strict_eq (link latestItem) (LastLink.load_last_link file)
      then {| posted := []; disk := file; completed := true |}
      else if ok
           then {| posted := [latestItem];
                   disk := Parsed {| history := None;
                                     last_link := link latestItem;
                                     last_time := None |};
                   completed := true |}
           else {| posted := []; disk := file; completed := false |}
  end.

End Latest.

(** ** The state model of the specification *)

Module Spec.

(** Section 3: a set of published links and an optional high-water
    timestamp. *)
Record Canonical : Type := mkCanonical {
  publishedSet : list JsString;
  highWaterTime : option Z
}.

(** Section 4.1, third rule: a legacy record that carries only the link
    [l], normalized against the feed snapshot. *)
Definition normalize_link_only (l : JsString) (snapshot : list Item) : Canonical :=
  match find (fun i => strict_eq (link i) (Some l)) snapshot with
  | Some found => {| publishedSet := [l]; highWaterTime := isoDate found |}
  | None => {| publishedSet := [l]; highWaterTime := None |}
  end.

End Spec.

(** ** Vocabulary of the statements *)

(** The entries of a plan whose call of [postToBluesky] returns, when the
    first call of the plan is call number [k] of the oracle. *)
Fixpoint delivered (ok : nat -> bool) (k : nat) (l : list Item) : list Item :=
  match l with
  | [] => []
  | x :: r => if ok k then x :: delivered ok (S k) r else delivered ok (S k) r
  end.

Definition always_ok : nat -> bool := fun _ => true.
Definition never_ok : nat -> bool := fun _ => false.

(** Every call returns but call number [n]. *)
Definition fails_at (n : nat) : nat -> bool := fun k => negb (k =? n).

(** The state of the history script in the vocabulary of the
    specification: a set of links and no high-water mark. *)
Definition history_view (h : list JsString) : Spec.Canonical :=
  {| Spec.publishedSet := h; Spec.highWaterTime := None |}.

(** The state of the timestamp script in that vocabulary: a high-water
    mark and no set; the values 0 and [NaN] stand for no mark. *)
Definition time_view (lastPostedTime : option Z) : Spec.Canonical :=
  {| Spec.publishedSet := [];
     Spec.highWaterTime :=
       match lastPostedTime with
       | Some 0%Z => None
       | t => t
       end |}.

(** How often a link occurs in a history. *)
Definition occurrences (s : JsString) (h : list JsString) : nat :=
  length (filter (str_eqb s) h).

(** The timestamp used to order two dated entries. *)
Definition stamp (i : Item) : Z :=
  match isoDate i with
  | Some t => t
  | None => 0%Z
  end.

Definition dated (i : Item) : Prop := isoDate i = Some (stamp i).

(** Arrays in ascending and in descending order of a key. *)
Definition ascending (A : Type) (key : A -> Z) : list A -> Prop :=
  StronglySorted (fun a b => (key a <= key b)%Z).

Definition descending (A : Type) (key : A -> Z) : list A -> Prop :=
  StronglySorted (fun a b => (key b <= key a)%Z).

(** A succession of runs of [src/index.js], each with its feed and its
    oracle, the state file of one run being read by the next. Returns
    everything that reached the timeline, in order, and the last file. *)
Fixpoint campaign (runs : list ((nat -> bool) * list Item)) (file : StateFile)
  : list Item * StateFile :=
  match runs with
  | [] => ([], file)
  | (ok, items) :: rest =>
      let r := IndexJs.main ok items file in
      let (pub, f) := campaign rest (IndexJs.disk r) in
      (IndexJs.posted r ++ pub, f)
  end.

(** ** Sample feeds *)

Module Samples.

(** Entry number [k], published at instant [k]. *)
Definition entry (k : nat) : Item :=
  {| title := Some (js "Haber");
     link := Some (js "https://bbc.example/" ++ [N.of_nat (1000 + k)]);
     isoDate := Some (Z.of_nat k);
     contentSnippet := Some (js "Ozet") |}.

(** A feed of [n] entries, newest first. *)
Definition feed (n : nat) : list Item := rev (map entry (seq 0 n)).

(** The link of an entry that has left every sample feed. *)
Definition old_link : JsString := js "https://bbc.example/old".

(** Entry number [k] as a feed without publication dates gives it. *)
Definition undated (k : nat) : Item :=
  {| title := Some (js "Haber");
     link := Some (js "https://bbc.example/" ++ [N.of_nat (1000 + k)]);
     isoDate := None;
     contentSnippet := Some (js "Ozet") |}.

(** A history of 100 links that starts with the link of entry 0. *)
Definition full_history : list JsString :=
  link_text (entry 0) :: repeat (js "https://bbc.example/x") 99.

(** An entry whose summary is 300 code units long. *)
Definition wordy : Item :=
  {| title := Some (js " Haber ");
     link := Some (js "https://bbc.example/a");
     isoDate := Some 1%Z;
     contentSnippet := Some (repeat 120%N 300) |}.

(** An advertisement: the marker sits inside the title. *)
Definition advert : Item :=
  {| title := Some (js "BBC: " ++ IndexJs.marker ++ js " ...");
     link := Some (js "https://bbc.example/ad");
     isoDate := Some 9%Z;
     contentSnippet := None |}.

(** A web where the page of every entry names the image [img], which
    weighs [size] bytes and comes without a content type. *)
Definition web (size : N) : IndexJs.Web :=
  {| IndexJs.page := fun _ => Some (Some (js "https://bbc.example/img"));
     IndexJs.picture := fun _ => Some (size, None);
     IndexJs.store := fun _ _ => Some 7%N;
     IndexJs.facets := fun _ => true;
     IndexJs.publish := fun _ _ => true |}.

End Samples.

(** * Facts about the JavaScript library functions *)

Lemma str_eqb_eq (a b : JsString) : str_eqb a b = true <-> a = b.
Proof.
  revert b; induction a as [|x a IH]; intros [|y b]; simpl; split; intro H;
    try reflexivity; try discriminate.
  - apply andb_true_iff in H as [Hx Hab].
    apply N.eqb_eq in Hx. apply IH in Hab. congruence.
  - injection H as -> ->. rewrite N.eqb_refl. simpl. now apply IH.
Qed.

Lemma str_eqb_refl (a : JsString) : str_eqb a a = true.
Proof. now apply str_eqb_eq. Qed.

Lemma existsb_str_eqb (s : JsString) (h : list JsString) :
  existsb (str_eqb s) h = true <-> In s h.
Proof.
  rewrite existsb_exists. split.
  - intros (x & Hin & Heq). apply str_eqb_eq in Heq. now subst.
  - intro Hin. exists s. split; [assumption | apply str_eqb_refl].
Qed.

Section SliceLast.
Variable A : Type.
Implicit Types (l h b : list A) (n : nat).

Lemma slice_last_short n l : length l <= n -> slice_last n l = l.
Proof.
  intro H. unfold slice_last.
  replace (length l - n) with 0 by lia. reflexivity.
Qed.

Lemma slice_last_length n l : length (slice_last n l) = Nat.min n (length l).
Proof. unfold slice_last. rewrite length_skipn. lia. Qed.

(** What [slice(-n)] drops is a prefix: the oldest elements. *)
Lemma slice_last_suffix n l : firstn (length l - n) l ++ slice_last n l = l.
Proof. unfold slice_last. apply firstn_skipn. Qed.

Lemma slice_last_app_exact n h b : length b = n -> slice_last n (h ++ b) = b.
Proof.
  intro H. unfold slice_last. rewrite length_app, skipn_app.
  replace (length h + length b - n) with (length h) by lia.
  rewrite skipn_all, Nat.sub_diag. reflexivity.
Qed.

Lemma slice_last_app_long n h b :
  n <= length b -> slice_last n (h ++ b) = slice_last n b.
Proof.
  intro H.
  rewrite <- (slice_last_suffix n b) at 1.
  rewrite app_assoc. apply slice_last_app_exact.
  rewrite slice_last_length. lia.
Qed.

(** Trimming after every push is trimming once at the end. *)
Lemma slice_last_absorb n h b :
  slice_last n (slice_last n h ++ b) = slice_last n (h ++ b).
Proof.
  destruct (Nat.le_gt_cases (length h) n) as [Hle | Hgt].
  - now rewrite (@slice_last_short n h Hle).
  - rewrite <- (slice_last_suffix n h) at 2.
    set (s := slice_last n h).
    assert (Hs : length s = n) by (unfold s; rewrite slice_last_length; lia).
    unfold slice_last.
    rewrite <- app_assoc, !length_app, Hs.
    remember (firstn (length h - n) h) as p eqn:Hp.
    rewrite (skipn_app (length p + (n + length b) - n) p).
    replace (skipn (length p + (n + length b) - n) p) with (@nil A)
      by (symmetry; apply skipn_all2; lia).
    simpl. f_equal. lia.
Qed.

Lemma slice_last_In n l x : In x (slice_last n l) -> In x l.
Proof.
  intro H. rewrite <- (slice_last_suffix n l). apply in_or_app. now right.
Qed.
End SliceLast.

Section SortFacts.
Variable A : Type.
Variable cmp : Comparator A.

Lemma place_perm (x : A) (r : list A) : Permutation (place cmp x r) (x :: r).
Proof.
  induction r as [|y r IH]; simpl.
  - apply Permutation_refl.
  - destruct (0 <? SortCompare cmp y x)%Z.
    + eapply perm_trans; [apply perm_skip, IH | apply perm_swap].
    + apply Permutation_refl.
Qed.

Lemma placing_perm (l acc : list A) :
  Permutation (fold_left (fun racc x => place cmp x racc) l acc) (l ++ acc).
Proof.
  revert acc; induction l as [|x l IH]; intro acc; simpl.
  - apply Permutation_refl.
  - eapply perm_trans; [apply IH|].
    eapply perm_trans; [apply Permutation_app_head, place_perm|].
    apply Permutation_sym, Permutation_middle.
Qed.

(** Sorting rearranges: nothing is added, dropped or repeated. *)
Lemma array_sort_perm (l : list A) : Permutation (array_sort cmp l) l.
Proof.
  unfold array_sort.
  eapply perm_trans; [apply Permutation_sym, Permutation_rev|].
  rewrite <- (app_nil_r l) at 2. apply placing_perm.
Qed.

Lemma array_sort_length (l : list A) : length (array_sort cmp l) = length l.
Proof. apply Permutation_length, array_sort_perm. Qed.

Lemma array_sort_In (l : list A) (x : A) : In x (array_sort cmp l) <-> In x l.
Proof.
  split; apply Permutation_in;
    [apply array_sort_perm | apply Permutation_sym, array_sort_perm].
Qed.

Lemma array_sort_nil : array_sort cmp [] = [].
Proof. reflexivity. Qed.

Lemma array_sort_one (x : A) : array_sort cmp [x] = [x].
Proof. reflexivity. Qed.

(** When the comparison function is a difference of keys on the
    elements at hand, the result is in ascending key order. *)
Variable key : A -> Z.
Variable keyed : A -> Prop.
Hypothesis cmp_key :
  forall x y, keyed x -> keyed y -> cmp x y = Some (key x - key y)%Z.

Lemma place_keyed (x : A) (r : list A) :
  keyed x -> Forall keyed r -> Forall keyed (place cmp x r).
Proof.
  intros Hx Hr. eapply Permutation_Forall.
  - apply Permutation_sym, place_perm.
  - now constructor.
Qed.

Lemma place_descending (x : A) (r : list A) :
  keyed x -> Forall keyed r -> descending key r -> descending key (place cmp x r).
Proof.
  intros Hx Hr Hs. induction Hs as [|y r Hs IH Hy]; simpl.
  - repeat constructor.
  - inversion Hr as [|? ? Hky Hkr]; subst.
    unfold SortCompare. rewrite (cmp_key Hky Hx).
    destruct (Z.ltb_spec 0 (key y - key x)) as [Hlt | Hge].
    + constructor; [now apply IH|].
      eapply Permutation_Forall; [apply Permutation_sym, place_perm|].
      constructor; [lia | assumption].
    + constructor; [now constructor|].
      constructor; [lia|].
      eapply Forall_impl; [|exact Hy]. simpl. intros a Ha. lia.
Qed.

Lemma placing_descending (l acc : list A) :
  Forall keyed l -> Forall keyed acc -> descending key acc ->
  descending key (fold_left (fun racc x => place cmp x racc) l acc).
Proof.
  revert acc; induction l as [|x l IH]; intros acc Hl Hacc Hs; simpl.
  - assumption.
  - inversion Hl; subst.
    apply IH; [assumption | now apply place_keyed | now apply place_descending].
Qed.

Lemma snoc_sorted (R : A -> A -> Prop) (l : list A) (a : A) :
  StronglySorted R l -> Forall (fun x => R x a) l -> StronglySorted R (l ++ [a]).
Proof.
  intros Hs; induction Hs as [|y l Hs IH Hy]; intro Hf; simpl.
  - repeat constructor.
  - inversion Hf; subst. constructor; [now apply IH|].
    apply Forall_app. split; [assumption | now repeat constructor].
Qed.

Lemma rev_sorted (R : A -> A -> Prop) (l : list A) :
  StronglySorted R l -> StronglySorted (fun a b => R b a) (rev l).
Proof.
  intros Hs; induction Hs as [|y l Hs IH Hy]; simpl.
  - constructor.
  - apply snoc_sorted; [assumption|].
    apply Forall_rev. assumption.
Qed.

Lemma array_sort_ascending (l : list A) :
  Forall keyed l -> ascending key (array_sort cmp l).
Proof.
  intro Hl. unfold array_sort, ascending.
  apply (rev_sorted (R := fun a b => (key b <= key a)%Z)).
  apply placing_descending; [assumption | constructor | constructor].
Qed.

(** The sort is stable: elements that share a key keep their order. *)
Lemma place_same_key (x : A) (r : list A) (v : Z) :
  keyed x -> Forall keyed r ->
  filter (fun a => (key a =? v)%Z) (place cmp x r) =
  if (key x =? v)%Z
  then x :: filter (fun a => (key a =? v)%Z) r
  else filter (fun a => (key a =? v)%Z) r.
Proof.
  intros Hx Hr. induction Hr as [|y r Hy Hr IH]; simpl; [reflexivity|].
  unfold SortCompare. rewrite (cmp_key Hy Hx).
  destruct (Z.ltb_spec 0 (key y - key x)) as [Hlt | Hge]; [|reflexivity].
  simpl. rewrite IH.
  destruct (Z.eqb_spec (key y) v) as [Hyv | Hyv],
           (Z.eqb_spec (key x) v) as [Hxv | Hxv]; try reflexivity.
  lia.
Qed.

Lemma placing_same_key (l acc : list A) (v : Z) :
  Forall keyed l -> Forall keyed acc ->
  filter (fun a => (key a =? v)%Z) (fold_left (fun racc x => place cmp x racc) l acc) =
  rev (filter (fun a => (key a =? v)%Z) l) ++ filter (fun a => (key a =? v)%Z) acc.
Proof.
  revert acc; induction l as [|x l IH]; intros acc Hl Hacc; simpl; [reflexivity|].
  inversion Hl; subst.
  rewrite IH by (try assumption; now apply place_keyed).
  rewrite place_same_key by assumption.
  destruct (key x =? v)%Z; simpl; [|reflexivity].
  now rewrite <- app_assoc.
Qed.

Lemma array_sort_stable (l : list A) (v : Z) :
  Forall keyed l ->
  filter (fun a => (key a =? v)%Z) (array_sort cmp l) =
  filter (fun a => (key a =? v)%Z) l.
Proof.
  intro Hl. unfold array_sort.
  rewrite filter_rev, placing_same_key by (assumption || constructor).
  simpl. now rewrite app_nil_r, rev_involutive.
Qed.

(** In a sorted array a strictly smaller key sits at a strictly smaller
    index. *)
Lemma sorted_index_order (l : list A) :
  ascending key l ->
  forall i j a b,
    nth_error l i = Some a -> nth_error l j = Some b ->
    (key a < key b)%Z -> i < j.
Proof.
  intro Hs. induction Hs as [|y l Hs IH Hy]; intros i j a b Hi Hj Hlt.
  - destruct i; discriminate.
  - destruct i as [|i], j as [|j]; simpl in Hi, Hj.
    + injection Hi as ->. injection Hj as ->. lia.
    + lia.
    + injection Hj as ->. apply nth_error_In in Hi.
      rewrite Forall_forall in Hy. specialize (Hy _ Hi). simpl in Hy. lia.
    + apply -> Nat.succ_lt_mono. eapply IH; eassumption.
Qed.
End SortFacts.

(** * Facts about [src/index.js] *)

Lemma truthy_Some (v : JsProp) :
  truthy v = true -> exists c s, v = Some (c :: s).
Proof.
  destruct v as [[|c s]|]; simpl; intro H; try discriminate. now exists c, s.
Qed.

(** What the first filter of step 4 keeps. *)
Lemma allValidItems_In (items : list Item) (i : Item) :
  In i (IndexJs.allValidItems items) <->
  In i items /\ truthy (link i) = true /\ truthy (title i) = true
  /\ title_includes (title i) IndexJs.marker = false.
Proof.
  unfold IndexJs.allValidItems. rewrite filter_In, !andb_true_iff, negb_true_iff.
  tauto.
Qed.

Lemma valid_link (items : list Item) (i : Item) :
  In i (IndexJs.allValidItems items) -> link i = Some (link_text i).
Proof.
  intro H. apply allValidItems_In in H as (_ & Hl & _).
  apply truthy_Some in Hl as (c & s & Hl). unfold link_text. now rewrite Hl.
Qed.

Lemma history_includes_In (h : list JsString) (i : Item) :
  link i = Some (link_text i) ->
  IndexJs.history_includes h (link i) = true <-> In (link_text i) h.
Proof.
  intro Hl. rewrite Hl. simpl. apply existsb_str_eqb.
Qed.

Lemma not_posted_In (h : list JsString) (valid : list Item) (i : Item) :
  In i (IndexJs.not_posted h valid) <->
  In i valid /\ IndexJs.history_includes h (link i) = false.
Proof.
  unfold IndexJs.not_posted. rewrite filter_In, negb_true_iff. tauto.
Qed.

Lemma not_posted_nil (h : list JsString) (valid : list Item) :
  (forall i, In i valid -> IndexJs.history_includes h (link i) = true) ->
  IndexJs.not_posted h valid = [].
Proof.
  intro H. induction valid as [|x valid IH]; simpl; [reflexivity|].
  rewrite (H x) by now left. simpl. apply IH. intros i Hi. apply H. now right.
Qed.

Lemma not_posted_empty_history (valid : list Item) :
  IndexJs.not_posted [] valid = valid.
Proof.
  induction valid as [|x valid IH]; simpl; [reflexivity|].
  replace (IndexJs.history_includes [] (link x)) with false
    by (now destruct (link x)).
  simpl. now rewrite IH.
Qed.

(** Push followed by the conditional [slice(-100)] is one [slice(-100)]. *)
Lemma remember_slice (item : Item) (h : list JsString) :
  IndexJs.remember item h = slice_last 100 (h ++ [link_text item]).
Proof.
  unfold IndexJs.remember.
  destruct (Nat.ltb_spec 100 (length (h ++ [link_text item]))) as [Hlt | Hle].
  - reflexivity.
  - symmetry. now apply slice_last_short.
Qed.

Lemma remember_length (item : Item) (h : list JsString) :
  length (IndexJs.remember item h) <= 100.
Proof. rewrite remember_slice, slice_last_length. lia. Qed.

Lemma load_save (h : list JsString) : IndexJs.load_history (IndexJs.save h) = h.
Proof. reflexivity. Qed.

Section PostLoop.
Variable ok : nat -> bool.

(** The loop publishes exactly the entries whose call returns: a call
    that throws stops nothing. *)
Lemma post_loop_posted (l : list Item) :
  forall k st,
    IndexJs.posted (IndexJs.post_loop ok k l st) = IndexJs.posted st ++ delivered ok k l.
Proof.
  induction l as [|x l IH]; intros k st; simpl.
  - now rewrite app_nil_r.
  - rewrite IH. destruct (ok k); simpl; [|reflexivity].
    now rewrite <- app_assoc.
Qed.

(** The history after the loop: untouched without a success, otherwise
    the last 100 of the old history followed by the delivered links. *)
Lemma post_loop_memory (l : list Item) :
  forall k st,
    IndexJs.memory (IndexJs.post_loop ok k l st) =
    match delivered ok k l with
    | [] => IndexJs.memory st
    | d => slice_last 100 (IndexJs.memory st ++ map link_text d)
    end.
Proof.
  induction l as [|x l IH]; intros k st; simpl; [reflexivity|].
  rewrite IH. destruct (ok k); simpl; [|reflexivity].
  rewrite remember_slice.
  destruct (delivered ok (S k) l) as [|y d]; [reflexivity|].
  rewrite slice_last_absorb, <- app_assoc. reflexivity.
Qed.

(** The file after the loop holds the history whenever something was
    published, and is left as it was otherwise. *)
Lemma post_loop_disk (l : list Item) :
  forall k st,
    IndexJs.disk (IndexJs.post_loop ok k l st) =
    match delivered ok k l with
    | [] => IndexJs.disk st
    | _ => IndexJs.save (IndexJs.memory (IndexJs.post_loop ok k l st))
    end.
Proof.
  induction l as [|x l IH]; intros k st; simpl; [reflexivity|].
  rewrite IH. destruct (ok k); simpl; [|reflexivity].
  destruct (delivered ok (S k) l) eqn:Hd; [|reflexivity].
  now rewrite post_loop_memory, Hd.
Qed.
End PostLoop.

Lemma delivered_always (l : list Item) (k : nat) : delivered always_ok k l = l.
Proof.
  revert k; induction l as [|x l IH]; intro k; simpl; [reflexivity|].
  now rewrite IH.
Qed.

Lemma delivered_length (ok : nat -> bool) (l : list Item) (k : nat) :
  length (delivered ok k l) <= length l.
Proof.
  revert k; induction l as [|x l IH]; intro k; simpl; [lia|].
  destruct (ok k); simpl; specialize (IH (S k)); lia.
Qed.

Lemma delivered_In (ok : nat -> bool) (l : list Item) (k : nat) (x : Item) :
  In x (delivered ok k l) <-> exists i, nth_error l i = Some x /\ ok (k + i) = true.
Proof.
  revert k; induction l as [|y l IH]; intro k; simpl.
  - split; [tauto|]. intros ([|i] & Hi & _); discriminate.
  - split.
    + intro H. destruct (ok k) eqn:Hk.
      * destruct H as [-> | H].
        -- exists 0. rewrite Nat.add_0_r. now split.
        -- apply IH in H as (i & Hi & Hok). exists (S i).
           rewrite Nat.add_succ_r. now split.
      * apply IH in H as (i & Hi & Hok). exists (S i).
        rewrite Nat.add_succ_r. now split.
    + intros ([|i] & Hi & Hok); simpl in Hi.
      * injection Hi as ->. rewrite Nat.add_0_r in Hok. rewrite Hok. now left.
      * rewrite Nat.add_succ_r in Hok.
        assert (Hin : In x (delivered ok (S k) l)) by (apply IH; now exists i).
        destruct (ok k); [now right | assumption].
Qed.

(** [main] is the post loop run on the plan. *)
Lemma main_as_loop (ok : nat -> bool) (items : list Item) (file : StateFile) :
  IndexJs.main ok items file =
  IndexJs.post_loop ok 0 (IndexJs.plan items file)
    {| IndexJs.posted := [];
       IndexJs.memory := fst (IndexJs.select items (IndexJs.load_history file));
       IndexJs.disk := file |}.
Proof.
  unfold IndexJs.main, IndexJs.plan.
  destruct (IndexJs.select items (IndexJs.load_history file)) as [h [|x n]];
    reflexivity.
Qed.

Lemma main_posted (ok : nat -> bool) (items : list Item) (file : StateFile) :
  IndexJs.posted (IndexJs.main ok items file) =
  delivered ok 0 (IndexJs.plan items file).
Proof. rewrite main_as_loop, post_loop_posted. reflexivity. Qed.

Lemma main_disk (ok : nat -> bool) (items : list Item) (file : StateFile) :
  IndexJs.disk (IndexJs.main ok items file) =
  match delivered ok 0 (IndexJs.plan items file) with
  | [] => file
  | d => IndexJs.save
           (slice_last 100
              (fst (IndexJs.select items (IndexJs.load_history file))
               ++ map link_text d))
  end.
Proof.
  rewrite main_as_loop, post_loop_disk, post_loop_memory. simpl.
  destruct (delivered ok 0 (IndexJs.plan items file)); reflexivity.
Qed.

(** The first-run safety replaces the history only when it is empty. *)
Lemma select_keeps_history (items : list Item) (h : list JsString) :
  h <> [] -> IndexJs.select items h = (h, IndexJs.not_posted h (IndexJs.allValidItems items)).
Proof.
  intro Hh. unfold IndexJs.select, IndexJs.first_run_cap.
  destruct h; [contradiction | reflexivity].
Qed.

Lemma select_first_run (items : list Item) :
  5 < length (IndexJs.allValidItems items) ->
  IndexJs.select items [] =
  (map link_text (IndexJs.allValidItems items),
   firstn 1 (IndexJs.allValidItems items)).
Proof.
  intro H. unfold IndexJs.select, IndexJs.first_run_cap.
  rewrite not_posted_empty_history. simpl.
  apply Nat.ltb_lt in H. rewrite H.
  destruct (IndexJs.allValidItems items); reflexivity.
Qed.

Lemma select_small (items : list Item) (h : list JsString) :
  length (IndexJs.not_posted h (IndexJs.allValidItems items)) <= 5 ->
  IndexJs.select items h = (h, IndexJs.not_posted h (IndexJs.allValidItems items)).
Proof.
  intro H. unfold IndexJs.select, IndexJs.first_run_cap.
  apply Nat.ltb_ge in H. rewrite H, andb_false_r. reflexivity.
Qed.

Lemma slice_last_nonempty (A : Type) (l : list A) (x : A) (n : nat) :
  slice_last (S n) (l ++ [x]) <> [].
Proof.
  intro H. apply (f_equal (@length A)) in H.
  rewrite slice_last_length, length_app in H.
  change (length [x]) with 1 in H. change (length (@nil A)) with 0 in H. lia.
Qed.

Lemma slice_last_keeps_some (A : Type) (l : list A) (n : nat) :
  l <> [] -> slice_last (S n) l <> [].
Proof.
  intros Hl H. apply (f_equal (@length A)) in H.
  rewrite slice_last_length in H. destruct l; [contradiction|].
  cbn [length] in H. lia.
Qed.

(** Across runs the file evolves as one history: whatever the first
    publishing run started from, followed by every published link, cut
    to its last 100. *)
Lemma campaign_history (runs : list ((nat -> bool) * list Item)) :
  forall file pub f,
    campaign runs file = (pub, f) ->
    exists pre,
      (IndexJs.load_history file <> [] -> pre = IndexJs.load_history file)
      /\ (pub = [] -> f = file)
      /\ (pub <> [] ->
          f = IndexJs.save (slice_last 100 (pre ++ map link_text pub))).
Proof.
  induction runs as [|[ok items] rest IH]; intros file pub f Hc; simpl in Hc.
  - injection Hc as <- <-. exists (IndexJs.load_history file).
    repeat split; congruence.
  - destruct (campaign rest (IndexJs.disk (IndexJs.main ok items file)))
      as [p f'] eqn:Hrest.
    injection Hc as <- <-.
    rewrite main_posted. rewrite main_disk in Hrest.
    set (h' := fst (IndexJs.select items (IndexJs.load_history file))) in *.
    destruct (delivered ok 0 (IndexJs.plan items file)) as [|d0 ds] eqn:Hd.
    + simpl. now apply IH.
    + apply IH in Hrest as (pre' & Hpre & Hnil & Hsome).
      rewrite load_save in Hpre.
      assert (Hm : slice_last 100 (h' ++ map link_text (d0 :: ds)) <> []).
      { apply slice_last_keeps_some. simpl. now destruct h'. }
      specialize (Hpre Hm). subst pre'.
      exists h'. split; [|split].
      * intro Hne. unfold h'. now rewrite select_keeps_history.
      * discriminate.
      * intros _. destruct p as [|p0 ps].
        -- rewrite app_nil_r. now apply Hnil.
        -- rewrite Hsome by discriminate.
           now rewrite slice_last_absorb, <- app_assoc, <- map_app.
Qed.

(** C5. Bounded history. Over any succession of runs of the history
    script, every successful publish appends the link at the end of the
    history and drops entries only from its front (the oldest first),
    leaving at most 100; the file written after at least one publish
    holds at most 100 links; and once 100 or more entries have been
    published (in particular more than 100), the file holds exactly the
    links of the last 100 published entries, in publication order. *)
Theorem history_bounded_fifo
  (runs : list ((nat -> bool) * list Item)) (file : StateFile)
  (pub : list Item) (f : StateFile) :
  campaign runs file = (pub, f) ->
  (forall item h,
      exists evicted,
        evicted ++ IndexJs.remember item h = h ++ [link_text item]
        /\ length (IndexJs.remember item h) <= 100)
  /\ (pub <> [] -> length (IndexJs.load_history f) <= 100)
  /\ (100 <= length pub ->
      IndexJs.load_history f = slice_last 100 (map link_text pub)
      /\ length (IndexJs.load_history f) = 100).
Proof.
  intro Hc. apply campaign_history in Hc as (pre & _ & _ & Hsome).
  split; [|split].
  - intros item h. rewrite remember_slice.
    exists (firstn (length (h ++ [link_text item]) - 100) (h ++ [link_text item])).
    split; [apply slice_last_suffix | rewrite slice_last_length; lia].
  - intro Hne. rewrite (Hsome Hne), load_save, slice_last_length. lia.
  - intro Hlen.
    assert (Hne : pub <> []) by (destruct pub; [simpl in Hlen; lia | discriminate]).
    rewrite (Hsome Hne), load_save.
    rewrite slice_last_app_long by (rewrite length_map; lia).
    split; [reflexivity|].
    rewrite slice_last_length, length_map. lia.
Qed.

Lemma history_bounded_fifo_witness :
  let runs := [(always_ok, Samples.feed 60); (always_ok, Samples.feed 101)] in
  let file := legacy_file Samples.old_link in
  100 <= length (fst (campaign runs file))
  /\ IndexJs.load_history (snd (campaign runs file))
     = slice_last 100 (map link_text (fst (campaign runs file))).
Proof.
  intros runs file.
  destruct (campaign runs file) as [pub f] eqn:Hc.
  assert (Hlen : 100 <= length pub).
  { replace pub with (fst (campaign runs file)) by now rewrite Hc.
    vm_compute. lia. }
  split; [exact Hlen|].
  exact (proj1 (proj2 (proj2 (history_bounded_fifo runs file Hc)) Hlen)).
Defined.

(** The two outcomes of the selection. *)
Lemma select_cases (items : list Item) (h : list JsString) :
  IndexJs.select items h = (h, IndexJs.not_posted h (IndexJs.allValidItems items))
  \/ (h = [] /\ 5 < length (IndexJs.allValidItems items)
      /\ IndexJs.select items h =
         (map link_text (IndexJs.allValidItems items),
          firstn 1 (IndexJs.allValidItems items))).
Proof.
  destruct h as [|l h].
  - destruct (Nat.lt_ge_cases 5 (length (IndexJs.allValidItems items))) as [Hgt | Hle].
    + right. repeat split; [assumption | now apply select_first_run].
    + left. apply select_small. now rewrite not_posted_empty_history.
  - left. now apply select_keeps_history.
Qed.

(** An entry of the plan is eligible, and its link is not in the history
    the run loaded. *)
Lemma plan_entry (items : list Item) (file : StateFile) (x : Item) :
  In x (IndexJs.plan items file) ->
  In x (IndexJs.allValidItems items)
  /\ ~ In (link_text x) (IndexJs.load_history file).
Proof.
  unfold IndexJs.plan. rewrite array_sort_In.
  destruct (select_cases items (IndexJs.load_history file)) as [Hs | (Hh & _ & Hs)];
    rewrite Hs; simpl; intro Hx.
  - apply not_posted_In in Hx as [Hv Hn]. split; [assumption|].
    intro Hin. apply history_includes_In in Hin; [congruence|].
    eapply valid_link; eassumption.
  - rewrite Hh. split; [|tauto].
    destruct (IndexJs.allValidItems items) as [|y v]; simpl in Hx; [tauto|].
    destruct Hx as [<- | []]. now left.
Qed.

Lemma delivered_app (ok : nat -> bool) (p q : list Item) :
  forall k,
    delivered ok k (p ++ q) = delivered ok k p ++ delivered ok (k + length p) q.
Proof.
  induction p as [|x p IH]; intro k; simpl.
  - now rewrite Nat.add_0_r.
  - rewrite IH, Nat.add_succ_r. now destruct (ok k).
Qed.

(** A short enough tail survives [slice(-n)]. *)
Lemma slice_last_keeps_tail (A : Type) (n : nat) (a b : list A) :
  length b <= n -> exists c, slice_last n (a ++ b) = c ++ b.
Proof.
  intro H. unfold slice_last. rewrite length_app, skipn_app.
  replace (length a + length b - n - length a) with 0 by lia.
  now exists (skipn (length a + length b - n) a).
Qed.

(** C6, as the code has it. A call of the publisher that throws does
    not stop the run: the timeline receives exactly the plan entries
    whose call returned, before or after a failure. An entry that was
    published and is followed by fewer than 100 other plan entries has
    its link in the file at the end of the run. The link of an entry
    whose call failed is not in that file, unless the plan holds another
    entry with the same link that was published. *)
Theorem failure_isolated (ok : nat -> bool) (items : list Item) (file : StateFile) :
  let r := IndexJs.main ok items file in
  let pl := IndexJs.plan items file in
  IndexJs.posted r = delivered ok 0 pl
  /\ (forall i x,
        nth_error pl i = Some x -> ok i = true -> length pl - i <= 100 ->
        In (link_text x) (IndexJs.load_history (IndexJs.disk r)))
  /\ (forall i x,
        nth_error pl i = Some x -> ok i = false ->
        (forall j y, nth_error pl j = Some y -> ok j = true ->
                     link_text y <> link_text x) ->
        ~ In (link_text x) (IndexJs.load_history (IndexJs.disk r))).
Proof.
  intros r pl. unfold r. split; [apply main_posted | split].
  - intros i x Hi Hok Hlen. rewrite main_disk. fold pl.
    destruct (nth_error_split pl i Hi) as (p1 & p2 & Hpl & Hp1).
    assert (Hd : delivered ok 0 pl =
                 delivered ok 0 p1 ++ x :: delivered ok (S i) p2).
    { rewrite Hpl, delivered_app. simpl. now rewrite Hp1, Hok. }
    rewrite Hd.
    destruct (delivered ok 0 p1 ++ x :: delivered ok (S i) p2) eqn:Hnil;
      [now destruct (delivered ok 0 p1)|].
    rewrite <- Hnil, load_save, map_app, app_assoc. simpl map.
    destruct (@slice_last_keeps_tail _ 100
                (fst (IndexJs.select items (IndexJs.load_history file))
                 ++ map link_text (delivered ok 0 p1))
                (link_text x :: map link_text (delivered ok (S i) p2)))
      as [c Hc].
    + simpl. rewrite length_map.
      pose proof (delivered_length ok p2 (S i)) as Hle.
      rewrite Hpl, length_app in Hlen. simpl in Hlen. lia.
    + rewrite Hc. apply in_or_app. right. now left.
  - intros i x Hi Hko Hothers Hin. rewrite main_disk in Hin. fold pl in Hin.
    assert (Hx : In x pl) by (eapply nth_error_In; eassumption).
    destruct (plan_entry items file x Hx) as [Hvalid Hfresh].
    destruct (delivered ok 0 pl) as [|d ds] eqn:Hd; [contradiction|].
    rewrite load_save in Hin. apply slice_last_In, in_app_or in Hin.
    destruct Hin as [Hin | Hin].
    + destruct (select_cases items (IndexJs.load_history file))
        as [Hs | (Hh & Hlen & Hs)]; rewrite Hs in Hin; simpl in Hin.
      * contradiction.
      * (* the first-run safety leaves a single entry, and it failed *)
        unfold pl, IndexJs.plan in Hi, Hd. rewrite Hs in Hi, Hd. simpl in Hi, Hd.
        destruct (IndexJs.allValidItems items) as [|y v]; [simpl in Hlen; lia|].
        simpl in Hi, Hd. rewrite array_sort_one in Hi.
        destruct i as [|i]; simpl in Hi; [|destruct i; discriminate].
        rewrite Hko in Hd. discriminate.
    + apply in_map_iff in Hin as (y & Hy & Hyd).
      rewrite <- Hd in Hyd. apply delivered_In in Hyd as (j & Hj & Hokj).
      simpl in Hokj. exact (Hothers j y Hj Hokj Hy).
Qed.

Lemma failure_isolated_witness :
  let ok := fails_at 1 in
  let items := Samples.feed 3 in
  let file := legacy_file Samples.old_link in
  let r := IndexJs.main ok items file in
  IndexJs.plan items file = [Samples.entry 0; Samples.entry 1; Samples.entry 2]
  /\ IndexJs.posted r = [Samples.entry 0; Samples.entry 2]
  /\ In (link_text (Samples.entry 0)) (IndexJs.load_history (IndexJs.disk r))
  /\ In (link_text (Samples.entry 2)) (IndexJs.load_history (IndexJs.disk r))
  /\ ~ In (link_text (Samples.entry 1)) (IndexJs.load_history (IndexJs.disk r)).
Proof.
  intros ok items file r.
  destruct (failure_isolated ok items file) as (Hposted & Hkept & Hskipped).
  split; [reflexivity|].
  split; [exact Hposted|].
  split; [apply (Hkept 0); [reflexivity | reflexivity | vm_compute; lia]|].
  split; [apply (Hkept 2); [reflexivity | reflexivity | vm_compute; lia]|].
  apply (Hskipped 1); [reflexivity | reflexivity |].
  intros [|[|[|[|j]]]] y Hj Hok; vm_compute in Hj, Hok; try discriminate;
    injection Hj as <-; discriminate.
Defined.

(** C6 fails as stated: in a plan of 102 entries where only the second
    call fails, the first entry is published and its link is no longer
    in the file when the run ends. *)
Lemma published_entry_evicted :
  let ok := fails_at 1 in
  let items := Samples.feed 102 in
  let file := legacy_file Samples.old_link in
  let r := IndexJs.main ok items file in
  nth_error (IndexJs.plan items file) 0 = Some (Samples.entry 0)
  /\ ok 0 = true
  /\ In (Samples.entry 0) (IndexJs.posted r)
  /\ ~ In (link_text (Samples.entry 0)) (IndexJs.load_history (IndexJs.disk r)).
Proof.
  intros ok items file r.
  split; [vm_compute; reflexivity|].
  split; [reflexivity|].
  split; [vm_compute; now left|].
  rewrite <- existsb_str_eqb. vm_compute. discriminate.
Qed.

(** * The post payload *)

Lemma embed_description (item : Item) (e : Embed) :
  IndexJs.embed item = Some e -> description e = IndexJs.desc item.
Proof.
  unfold IndexJs.embed. destruct (title item); [|discriminate].
  intro H. injection H as <-. reflexivity.
Qed.

(** C10. In the payload built for an entry, a non-empty summary gives
    the description made of its first 250 code units followed by the
    three dots; the dots are added to a summary of 250 code units or
    fewer as well, left whole; the description is 3 longer than the kept
    part and reaches 253; without a summary the description is empty. *)
Theorem description_marker (item : Item) (e : Embed) :
  IndexJs.embed item = Some e ->
  (forall s, contentSnippet item = Some s -> s <> [] ->
     description e = substring0 250 s ++ js "..."
     /\ (length s <= 250 -> description e = s ++ js "...")
     /\ length (description e) = Nat.min 250 (length s) + 3)
  /\ (contentSnippet item = None -> description e = [])
  /\ (exists item' e',
        IndexJs.embed item' = Some e' /\ length (description e') = 253).
Proof.
  intro He. rewrite (embed_description _ He). unfold IndexJs.desc.
  split; [|split].
  - intros s Hs Hne. rewrite Hs. destruct s as [|c s]; [contradiction|].
    split; [reflexivity | split].
    + intro Hlen. unfold substring0. now rewrite firstn_all2.
    + unfold substring0. rewrite length_app, length_firstn. reflexivity.
  - intros ->. reflexivity.
  - exists Samples.wordy. eexists. split; reflexivity.
Qed.

Lemma description_marker_witness :
  exists e,
    IndexJs.embed Samples.wordy = Some e
    /\ description e = repeat 120%N 250 ++ js "..."
    /\ length (description e) = 253.
Proof.
  eexists. split; [reflexivity|].
  destruct (description_marker Samples.wordy eq_refl) as (Hcut & _ & _).
  destruct (Hcut (repeat 120%N 300) eq_refl) as (Hd & _ & Hlen).
  - discriminate.
  - split; [exact Hd | exact Hlen].
Defined.

(** * The first-run safety of [src/index.js] *)

Lemma first_run_plan (items : list Item) (file : StateFile) :
  IndexJs.load_history file = [] ->
  5 < length (IndexJs.allValidItems items) ->
  exists x v,
    IndexJs.allValidItems items = x :: v
    /\ v <> []
    /\ IndexJs.plan items file = [x]
    /\ fst (IndexJs.select items (IndexJs.load_history file))
       = link_text x :: map link_text v.
Proof.
  intros Hh Hlen. unfold IndexJs.plan. rewrite Hh, (select_first_run _ Hlen).
  destruct (IndexJs.allValidItems items) as [|x [|y v]] eqn:Hv;
    try (simpl in Hlen; lia).
  exists x, (y :: v). repeat split. discriminate.
Qed.

(** C2, as the code has it. With an empty history and more than 5
    eligible entries, the plan holds exactly one entry, an eligible one,
    which is the most recent of all when the feed lists the eligible
    entries newest first. If its publish succeeds and there are at most
    100 eligible entries, the file written by the run holds the link of
    every eligible entry; if its publish fails, the run writes nothing. *)
Theorem first_run_seeds_and_posts_one
  (ok : nat -> bool) (items : list Item) (file : StateFile) :
  IndexJs.load_history file = [] ->
  5 < length (IndexJs.allValidItems items) ->
  (exists x,
      IndexJs.plan items file = [x]
      /\ In x (IndexJs.allValidItems items)
      /\ (StronglySorted (fun a b => no_later b a) (IndexJs.allValidItems items) ->
          forall i, In i (IndexJs.allValidItems items) -> no_later i x))
  /\ (ok 0 = true ->
      length (IndexJs.allValidItems items) <= 100 ->
      forall i, In i (IndexJs.allValidItems items) ->
                In (link_text i)
                   (IndexJs.load_history (IndexJs.disk (IndexJs.main ok items file))))
  /\ (ok 0 = false -> IndexJs.disk (IndexJs.main ok items file) = file).
Proof.
  intros Hh Hlen.
  destruct (first_run_plan items file Hh Hlen) as (x & v & Hv & Hne & Hplan & Hseed).
  split; [|split].
  - exists x. split; [assumption|]. rewrite Hv. split; [now left|].
    intros Hsorted i Hi. inversion Hsorted as [|? ? _ Hall]; subst.
    rewrite Forall_forall in Hall.
    destruct Hi as [<- | Hi]; [|now apply Hall].
    destruct v as [|y v]; [contradiction|].
    specialize (Hall y (or_introl eq_refl)). unfold no_later in *.
    destruct (isoDate x); [lia | now destruct (isoDate y)].
  - intros Hok Hmax i Hi. rewrite main_disk, Hplan, Hseed. simpl. rewrite Hok.
    rewrite load_save.
    destruct (@slice_last_keeps_tail _ 100 [link_text x]
                (map link_text v ++ [link_text x])) as [c Hc].
    + rewrite length_app, length_map. rewrite Hv in Hmax. simpl in *. lia.
    + change (In (link_text i)
                (slice_last 100 ([link_text x] ++ map link_text v ++ [link_text x]))).
      rewrite Hc. apply in_or_app. right. apply in_or_app.
      rewrite Hv in Hi. destruct Hi as [<- | Hi].
      * right. now left.
      * left. now apply in_map.
  - intro Hko. rewrite main_disk, Hplan. simpl. now rewrite Hko.
Qed.

Lemma first_run_seeds_and_posts_one_witness :
  let items := Samples.feed 10 in
  (exists x,
      IndexJs.plan items Missing = [x]
      /\ In x (IndexJs.allValidItems items)
      /\ (StronglySorted (fun a b => no_later b a) (IndexJs.allValidItems items) ->
          forall i, In i (IndexJs.allValidItems items) -> no_later i x))
  /\ (forall i, In i (IndexJs.allValidItems items) ->
                In (link_text i)
                   (IndexJs.load_history
                      (IndexJs.disk (IndexJs.main always_ok items Missing)))).
Proof.
  intro items.
  assert (Hlen : 5 < length (IndexJs.allValidItems items)) by (vm_compute; lia).
  destruct (first_run_seeds_and_posts_one always_ok items Missing eq_refl Hlen)
    as (Hone & Hall & _).
  split; [exact Hone|].
  apply Hall; [reflexivity | vm_compute; lia].
Defined.

(** C2 fails as stated. With 6 eligible entries and a publish that
    fails, the run leaves no state behind; with 101 eligible entries and
    a publish that succeeds, the link of the second entry is not in the
    file; and on a feed listed oldest first the single planned entry is
    the oldest one. *)
Lemma first_run_state_incomplete :
  (IndexJs.plan (Samples.feed 6) Missing = [Samples.entry 5]
   /\ IndexJs.disk (IndexJs.main never_ok (Samples.feed 6) Missing) = Missing)
  /\ (In (Samples.entry 99) (IndexJs.allValidItems (Samples.feed 101))
      /\ IndexJs.posted (IndexJs.main always_ok (Samples.feed 101) Missing)
         = [Samples.entry 100]
      /\ ~ In (link_text (Samples.entry 99))
              (IndexJs.load_history
                 (IndexJs.disk (IndexJs.main always_ok (Samples.feed 101) Missing))))
  /\ (IndexJs.plan (rev (Samples.feed 6)) Missing = [Samples.entry 0]
      /\ In (Samples.entry 5) (IndexJs.allValidItems (rev (Samples.feed 6)))
      /\ (stamp (Samples.entry 0) < stamp (Samples.entry 5))%Z).
Proof.
  split; [|split].
  - split; vm_compute; reflexivity.
  - split; [|split].
    + apply allValidItems_In. split; [|vm_compute; auto].
      unfold Samples.feed. rewrite <- in_rev. apply in_map, in_seq. lia.
    + vm_compute. reflexivity.
    + rewrite <- existsb_str_eqb. vm_compute. discriminate.
  - split; [vm_compute; reflexivity | split].
    + vm_compute. tauto.
    + vm_compute. reflexivity.
Qed.

(** C9, as the code has it. When the first-run safety triggers on fewer
    than 100 eligible entries and the selected entry is published, its
    link occurs at least twice in the file written by the run, which is
    therefore not free of duplicates. *)
Theorem first_run_duplicates_link
  (ok : nat -> bool) (items : list Item) (file : StateFile) :
  IndexJs.load_history file = [] ->
  5 < length (IndexJs.allValidItems items) ->
  length (IndexJs.allValidItems items) < 100 ->
  ok 0 = true ->
  exists x,
    IndexJs.plan items file = [x]
    /\ IndexJs.posted (IndexJs.main ok items file) = [x]
    /\ 2 <= occurrences (link_text x)
              (IndexJs.load_history (IndexJs.disk (IndexJs.main ok items file)))
    /\ ~ NoDup (IndexJs.load_history (IndexJs.disk (IndexJs.main ok items file))).
Proof.
  intros Hh Hlen Hmax Hok.
  destruct (first_run_plan items file Hh Hlen) as (x & v & Hv & Hne & Hplan & Hseed).
  exists x. split; [assumption|].
  rewrite main_posted, main_disk, Hplan, Hseed. simpl. rewrite Hok, load_save.
  split; [reflexivity|].
  rewrite slice_last_short
    by (simpl; rewrite length_app, length_map; rewrite Hv in Hmax; simpl in *; lia).
  split.
  - unfold occurrences. simpl. rewrite str_eqb_refl. simpl.
    rewrite filter_app, length_app. simpl. rewrite str_eqb_refl. simpl. lia.
  - intro Hnd. inversion Hnd as [|? ? Hnotin _]; subst.
    apply Hnotin, in_or_app. right. now left.
Qed.

Lemma first_run_duplicates_link_witness :
  exists x,
    IndexJs.plan (Samples.feed 10) Missing = [x]
    /\ IndexJs.posted (IndexJs.main always_ok (Samples.feed 10) Missing) = [x]
    /\ 2 <= occurrences (link_text x)
              (IndexJs.load_history
                 (IndexJs.disk (IndexJs.main always_ok (Samples.feed 10) Missing)))
    /\ ~ NoDup (IndexJs.load_history
                  (IndexJs.disk (IndexJs.main always_ok (Samples.feed 10) Missing))).
Proof.
  apply first_run_duplicates_link;
    [reflexivity | vm_compute; lia | vm_compute; lia | reflexivity].
Defined.

(** C9 fails as stated: with 100 eligible entries the safety triggers,
    the selected entry is published, and its link occurs once in the
    file, the seeded copy having been evicted by the cap of 100. *)
Lemma seeded_copy_evicted :
  let r := IndexJs.main always_ok (Samples.feed 100) Missing in
  IndexJs.plan (Samples.feed 100) Missing = [Samples.entry 99]
  /\ IndexJs.posted r = [Samples.entry 99]
  /\ occurrences (link_text (Samples.entry 99))
       (IndexJs.load_history (IndexJs.disk r)) = 1.
Proof.
  intro r. repeat split; vm_compute; reflexivity.
Qed.

(** * Running twice on the same feed *)

Lemma delivered_all (ok : nat -> bool) (l : list Item) :
  forall k,
    (forall i, i < length l -> ok (k + i) = true) -> delivered ok k l = l.
Proof.
  induction l as [|x l IH]; intros k H; simpl; [reflexivity|].
  rewrite <- (Nat.add_0_r k) at 1. rewrite (H 0) by (simpl; lia).
  f_equal. apply IH. intros i Hi.
  rewrite Nat.add_succ_l, <- Nat.add_succ_r. apply H. simpl. lia.
Qed.

Lemma all_published_disk (ok : nat -> bool) (items : list Item) (file : StateFile) :
  (forall k, k < length (IndexJs.plan items file) -> ok k = true) ->
  IndexJs.plan items file <> [] ->
  IndexJs.disk (IndexJs.main ok items file)
  = IndexJs.save
      (slice_last 100
         (fst (IndexJs.select items (IndexJs.load_history file))
          ++ map link_text (IndexJs.plan items file))).
Proof.
  intros Hok Hsome. rewrite main_disk.
  rewrite (delivered_all ok (IndexJs.plan items file) 0) by exact Hok.
  destruct (IndexJs.plan items file); [contradiction | reflexivity].
Qed.

(** C3, as the code has it. When every publish of the first run
    succeeds and the cap of 100 loses no link of an eligible entry of
    the feed (every such link among those the run cuts off the front of
    the history is also among the 100 it keeps), a second run on the
    same feed and the file left by the first plans nothing. The
    histories meant are the one the run starts from, loaded or seeded,
    followed by the links of the plan, and its last 100 links. *)
Theorem second_run_plans_nothing
  (ok : nat -> bool) (items : list Item) (file : StateFile) :
  let full := fst (IndexJs.select items (IndexJs.load_history file))
              ++ map link_text (IndexJs.plan items file) in
  (forall k, k < length (IndexJs.plan items file) -> ok k = true) ->
  (forall i, In i (IndexJs.allValidItems items) ->
             In (link_text i) (firstn (length full - 100) full) ->
             In (link_text i) (slice_last 100 full)) ->
  IndexJs.plan items (IndexJs.disk (IndexJs.main ok items file)) = [].
Proof.
  intros full Hok Hkept.
  assert (Hcase : IndexJs.plan items file = [] \/ IndexJs.plan items file <> [])
    by (destruct (IndexJs.plan items file); [now left | now right]).
  destruct Hcase as [Hnil | Hsome].
  - rewrite main_disk, Hnil. exact Hnil.
  - assert (Hfull : full <> []).
    { unfold full. intro H. apply app_eq_nil in H as [_ H].
      apply map_eq_nil in H. contradiction. }
    rewrite (all_published_disk ok items file Hok Hsome). fold full.
    unfold IndexJs.plan at 1. rewrite load_save.
    rewrite select_keeps_history by (now apply slice_last_keeps_some).
    simpl. rewrite not_posted_nil; [reflexivity|].
    intros i Hi. apply history_includes_In; [eapply valid_link; eassumption|].
    assert (Hin : In (link_text i) full).
    { unfold full. apply in_or_app.
      destruct (select_cases items (IndexJs.load_history file)) as [Hs | (_ & _ & Hs)].
      - destruct (IndexJs.history_includes (IndexJs.load_history file) (link i)) eqn:Hinc.
        + left. rewrite Hs. simpl.
          apply history_includes_In; [eapply valid_link; eassumption | assumption].
        + right. apply in_map. unfold IndexJs.plan. rewrite array_sort_In, Hs. simpl.
          apply not_posted_In. now split.
      - left. rewrite Hs. simpl. now apply in_map. }
    rewrite <- (slice_last_suffix 100 full) in Hin.
    apply in_app_or in Hin as [Hcut | Hin]; [now apply Hkept | assumption].
Qed.

Lemma second_run_plans_nothing_witness :
  let items := Samples.feed 8 in
  let file := IndexJs.save (repeat Samples.old_link 100) in
  length (IndexJs.plan items file) = 8
  /\ length (IndexJs.load_history (IndexJs.disk (IndexJs.main always_ok items file)))
     = 100
  /\ IndexJs.plan items (IndexJs.disk (IndexJs.main always_ok items file)) = [].
Proof.
  intros items file. split; [reflexivity | split; [vm_compute; reflexivity|]].
  apply second_run_plans_nothing; [reflexivity|].
  intros i Hi Hcut. exfalso. vm_compute in Hi, Hcut.
  repeat (destruct Hi as [<- | Hi];
          [repeat (destruct Hcut as [Hcut | Hcut]; [discriminate|]); contradiction|]).
  contradiction.
Defined.

(** C3 fails as stated. A history of 100 links whose oldest is still in
    the feed loses it when a new entry is published, and the next run
    plans that entry again; and an entry whose publish failed is planned
    again. *)
Lemma second_run_plans_again :
  (let items := Samples.feed 2 in
   let file := IndexJs.save Samples.full_history in
   IndexJs.plan items file = [Samples.entry 1]
   /\ IndexJs.posted (IndexJs.main always_ok items file) = [Samples.entry 1]
   /\ IndexJs.plan items (IndexJs.disk (IndexJs.main always_ok items file))
      = [Samples.entry 0])
  /\ (let items := Samples.feed 1 in
      let file := legacy_file Samples.old_link in
      IndexJs.plan items file = [Samples.entry 0]
      /\ IndexJs.plan items (IndexJs.disk (IndexJs.main never_ok items file))
         = [Samples.entry 0]).
Proof.
  split; intros items file; repeat split; vm_compute; reflexivity.
Qed.

(** * The stale-state catch-up of [src/unnamed/part_000] *)

Lemma strict_eq_eq (a b : JsProp) : strict_eq a b = true <-> a = b.
Proof.
  destruct a as [x|], b as [y|]; simpl; split; intro H;
    try discriminate; try reflexivity.
  - apply str_eqb_eq in H. now subst.
  - injection H as ->. apply str_eqb_refl.
Qed.

Lemma findIndex_None (A : Type) (p : A -> bool) (l : list A) :
  findIndex p l = None <-> forall x, In x l -> p x = false.
Proof.
  induction l as [|y l IH]; simpl.
  - split; [intros _ x [] | reflexivity].
  - destruct (p y) eqn:Hy.
    + split; [discriminate|]. intro H. rewrite (H y) in Hy by now left.
      discriminate.
    + destruct (findIndex p l) as [n|]; simpl.
      * split; [discriminate|]. intro H.
        apply proj2 in IH. discriminate IH. intros x Hx. apply H. now right.
      * split; [|reflexivity]. intros _ x [<- | Hx]; [assumption|].
        now apply (proj1 IH).
Qed.

(** C1, as the code has it. In the last-link script, when the stored
    link is not the empty string of a first run and no entry of the feed
    carries it, the plan is made of the first three entries of the raw
    feed, all of them when the feed has fewer, in reverse feed order.
    The history script has no such cap: with a non-empty history its
    plan has as many entries as there are eligible entries whose link
    is not in the history. *)
Theorem stale_link_catch_up (items : list Item) (file : StateFile) :
  LastLink.load_last_link file <> Some [] ->
  (forall i, In i items -> link i <> LastLink.load_last_link file) ->
  LastLink.plan items file = Some (rev (map Some (slice0 3 items)))
  /\ (forall pl, LastLink.plan items file = Some pl ->
                 length pl = Nat.min 3 (length items))
  /\ (forall file',
        IndexJs.load_history file' <> [] ->
        length (IndexJs.plan items file')
        = length (IndexJs.not_posted (IndexJs.load_history file')
                    (IndexJs.allValidItems items))).
Proof.
  intros Hfirst Habsent.
  assert (Hplan : LastLink.plan items file = Some (rev (map Some (slice0 3 items)))).
  { unfold LastLink.plan, LastLink.catch_up.
    replace (findIndex _ items) with (@None nat).
    - destruct (strict_eq (LastLink.load_last_link file) (Some [])) eqn:He;
        [|reflexivity].
      apply strict_eq_eq in He. contradiction.
    - symmetry. apply findIndex_None. intros x Hx.
      destruct (strict_eq (link x) (LastLink.load_last_link file)) eqn:He;
        [|reflexivity].
      apply strict_eq_eq in He. now apply Habsent in Hx. }
  split; [assumption | split].
  - intros pl Hpl.
    assert (Hrev : pl = rev (map Some (slice0 3 items))) by congruence.
    rewrite Hrev. unfold slice0.
    now rewrite length_rev, length_map, length_firstn.
  - intros file' Hne. unfold IndexJs.plan.
    rewrite array_sort_length, select_keeps_history by assumption. reflexivity.
Qed.

Lemma stale_link_catch_up_witness :
  LastLink.plan (Samples.feed 8) (legacy_file Samples.old_link)
  = Some [Some (Samples.entry 5); Some (Samples.entry 6); Some (Samples.entry 7)].
Proof.
  refine (proj1 (stale_link_catch_up (Samples.feed 8)
                   (legacy_file Samples.old_link) _ _)).
  - discriminate.
  - intros i Hi. vm_compute in Hi.
    repeat (destruct Hi as [<- | Hi]; [discriminate|]). contradiction.
Defined.

(** C1 fails as stated. The history script, started from a history
    whose only link has left the feed, plans all 8 eligible entries of a
    feed of 8. The last-link script plans 2 entries on a feed of 2, and
    on a feed of 4 listed oldest first it plans the three oldest
    entries, leaving out the most recent. *)
Lemma stale_state_not_capped_at_three :
  (IndexJs.load_history (legacy_file Samples.old_link) = [Samples.old_link]
   /\ ~ In Samples.old_link (map link_text (Samples.feed 8))
   /\ length (IndexJs.allValidItems (Samples.feed 8)) = 8
   /\ length (IndexJs.plan (Samples.feed 8) (legacy_file Samples.old_link)) = 8)
  /\ LastLink.plan (Samples.feed 2) (legacy_file Samples.old_link)
     = Some [Some (Samples.entry 0); Some (Samples.entry 1)]
  /\ LastLink.plan (rev (Samples.feed 4)) (legacy_file Samples.old_link)
     = Some [Some (Samples.entry 2); Some (Samples.entry 1); Some (Samples.entry 0)].
Proof.
  split; [split; [|split; [|split]] | split]; try (vm_compute; reflexivity).
  rewrite <- existsb_str_eqb. vm_compute. discriminate.
Qed.

(** * Reading a state file in the single-link shape *)

Lemma allItems_In (items : list Item) (i : Item) :
  In i (TimeMark.allItems items) ->
  In i items /\ truthy (title i) = true /\ truthy (link i) = true
  /\ dated i.
Proof.
  unfold TimeMark.allItems. rewrite array_sort_In, filter_In, !andb_true_iff.
  unfold dated, stamp, TimeMark.has_date. intros (Hin & ((Ht & Hl) & Hd) & _).
  repeat split; try assumption. destruct (isoDate i); [reflexivity | discriminate].
Qed.

(** C8, as the code has it. For a state file that holds a non-empty
    link and no timestamp: the history script does not consult the feed
    and starts from the history made of that one link; the timestamp
    script looks the link up among the eligible entries of the feed,
    takes the timestamp of the entry found as its high-water mark, and
    when no entry is found keeps the mark 0 of a first run, for which
    the plan is the single newest eligible entry. *)
Theorem legacy_link_only (l : JsString) (items : list Item) :
  l <> [] ->
  let file := legacy_file l in
  let all := TimeMark.allItems items in
  IndexJs.load_history file = [l]
  /\ (forall found,
        find (fun i => strict_eq (link i) (Some l)) all = Some found ->
        dated found /\ TimeMark.load_time file all = Some (stamp found))
  /\ (find (fun i => strict_eq (link i) (Some l)) all = None ->
      TimeMark.load_time file all = Some 0%Z
      /\ TimeMark.plan items file = [nth_error all 0]).
Proof.
  intros Hl file all. destruct l as [|c l]; [contradiction|].
  split; [reflexivity | split].
  - intros found Hfind. unfold TimeMark.load_time. simpl. fold all.
    rewrite Hfind. apply find_some in Hfind as [Hin _].
    apply allItems_In in Hin as (_ & _ & _ & Hd). now split.
  - intro Hfind.
    assert (Ht : TimeMark.load_time file all = Some 0%Z).
    { unfold TimeMark.load_time. simpl. fold all. now rewrite Hfind. }
    split; [assumption|].
    unfold TimeMark.plan. fold all. now rewrite Ht.
Qed.

Lemma legacy_link_only_witness :
  let l := link_text (Samples.entry 1) in
  IndexJs.load_history (legacy_file l) = [l]
  /\ TimeMark.load_time (legacy_file l) (TimeMark.allItems (Samples.feed 3))
     = Some 1%Z.
Proof.
  intro l.
  assert (Hl : l <> []) by discriminate.
  destruct (legacy_link_only (Samples.feed 3) Hl) as (Hhist & Hfound & _).
  split; [exact Hhist|].
  exact (proj2 (Hfound (Samples.entry 1) eq_refl)).
Defined.

(** C8 fails as stated. The history script, given the link of an entry
    of the feed, takes no timestamp from it: its state is the singleton
    set without a mark, where the rule of the specification sets the
    mark, and the older entry of the feed is planned. The timestamp
    script, given a link that left the feed, is left with the empty
    state of a first run, where the rule keeps the singleton set, and
    plans the newest entry alone. *)
Lemma link_only_state_differs :
  (let l := link_text (Samples.entry 1) in
   let file := legacy_file l in
   history_view (IndexJs.load_history file)
   = {| Spec.publishedSet := [l]; Spec.highWaterTime := None |}
   /\ Spec.normalize_link_only l (Samples.feed 2)
      = {| Spec.publishedSet := [l]; Spec.highWaterTime := Some 1%Z |}
   /\ IndexJs.plan (Samples.feed 2) file = [Samples.entry 0])
  /\ (let l := Samples.old_link in
      let file := legacy_file l in
      time_view (TimeMark.load_time file (TimeMark.allItems (Samples.feed 2)))
      = {| Spec.publishedSet := []; Spec.highWaterTime := None |}
      /\ Spec.normalize_link_only l (Samples.feed 2)
         = {| Spec.publishedSet := [l]; Spec.highWaterTime := None |}
      /\ TimeMark.plan (Samples.feed 2) file = [Some (Samples.entry 1)]).
Proof.
  split; intros l file; repeat split; vm_compute; reflexivity.
Qed.

(** * Eligibility and order of the plan in [src/index.js] *)

Lemma oldest_first_stamp (x y : Item) :
  dated x -> dated y -> oldest_first x y = Some (stamp x - stamp y)%Z.
Proof. unfold dated, oldest_first. now intros -> ->. Qed.

(** When every eligible entry carries a date, the plan is in ascending
    order of timestamps whatever the order of the feed: of two planned
    entries, the one with the strictly smaller timestamp is published
    first. *)
Lemma plan_chronological_when_dated (items : list Item) (file : StateFile) :
  Forall dated (IndexJs.allValidItems items) ->
  forall i j a b,
    nth_error (IndexJs.plan items file) i = Some a ->
    nth_error (IndexJs.plan items file) j = Some b ->
    (stamp a < stamp b)%Z -> i < j.
Proof.
  intro Hd. apply (@sorted_index_order _ stamp).
  unfold IndexJs.plan.
  apply (@array_sort_ascending _ oldest_first stamp dated (@oldest_first_stamp)).
  rewrite Forall_forall in *. intros x Hx. apply Hd.
  assert (Hp : In x (IndexJs.plan items file))
    by (unfold IndexJs.plan; now apply array_sort_In).
  now apply plan_entry in Hp.
Qed.

(** The plan holds eligible entries only, each once per occurrence in
    the feed. *)
Lemma plan_only_eligible (items : list Item) (file : StateFile) (x : Item) :
  In x (IndexJs.plan items file) ->
  In x items /\ truthy (link x) = true /\ truthy (title x) = true
  /\ title_includes (title x) IndexJs.marker = false.
Proof.
  intro Hx. apply plan_entry in Hx as [Hv _]. now apply allValidItems_In.
Qed.

(** C7. The filter of the history script keeps an entry that has a
    link and a title and no date, and the entry is planned; the filter
    of the timestamp script drops it. *)
Theorem undated_entry_is_eligible :
  let item := Samples.undated 0 in
  let file := legacy_file Samples.old_link in
  isoDate item = None
  /\ IndexJs.allValidItems [item] = [item]
  /\ IndexJs.plan [item] file = [item]
  /\ TimeMark.allItems [item] = [].
Proof.
  intros item file. repeat split; vm_compute; reflexivity.
Qed.

(** C4. On a feed whose middle entry has no date, the plan of the
    history script keeps the feed order: the entry stamped 3 is
    published before the entry stamped 1. *)
Theorem undated_entry_breaks_order :
  let items := [Samples.entry 3; Samples.undated 2; Samples.entry 1] in
  let file := legacy_file Samples.old_link in
  IndexJs.plan items file = [Samples.entry 3; Samples.undated 2; Samples.entry 1]
  /\ nth_error (IndexJs.plan items file) 0 = Some (Samples.entry 3)
  /\ nth_error (IndexJs.plan items file) 2 = Some (Samples.entry 1)
  /\ (stamp (Samples.entry 1) < stamp (Samples.entry 3))%Z
  /\ IndexJs.posted (IndexJs.main always_ok items file)
     = [Samples.entry 3; Samples.undated 2; Samples.entry 1].
Proof.
  intros items file. repeat split; vm_compute; reflexivity.
Qed.

(** * More on [src/index.js]: what a run publishes and records *)

Lemma delivered_in_plan (ok : nat -> bool) (l : list Item) (k : nat) (x : Item) :
  In x (delivered ok k l) -> In x l.
Proof.
  intro H. apply delivered_In in H as (i & Hi & _).
  eapply nth_error_In; eassumption.
Qed.

Lemma delivered_none (ok : nat -> bool) (l : list Item) :
  forall k,
    (forall i, i < length l -> ok (k + i) = false) -> delivered ok k l = [].
Proof.
  induction l as [|x l IH]; intros k H; simpl; [reflexivity|].
  rewrite <- (Nat.add_0_r k) at 1. rewrite (H 0) by (simpl; lia).
  apply IH. intros i Hi.
  rewrite Nat.add_succ_l, <- Nat.add_succ_r. apply H. simpl. lia.
Qed.

(** X1. Whatever the outcome of the calls, an entry that reaches the
    timeline comes from the feed, has a link and a title, is not the
    advertisement, and its link is not in the history the run loaded. *)
Theorem published_is_new_and_eligible
  (ok : nat -> bool) (items : list Item) (file : StateFile) (x : Item) :
  In x (IndexJs.posted (IndexJs.main ok items file)) ->
  In x items
  /\ truthy (link x) = true
  /\ truthy (title x) = true
  /\ title_includes (title x) IndexJs.marker = false
  /\ ~ In (link_text x) (IndexJs.load_history file).
Proof.
  rewrite main_posted. intro Hx. apply delivered_in_plan in Hx.
  destruct (plan_entry items file x Hx) as [Hv Hfresh].
  apply allValidItems_In in Hv as (Hin & Hl & Ht & Hm).
  repeat split; assumption.
Qed.

Lemma published_is_new_and_eligible_witness :
  let file := IndexJs.save [link_text (Samples.entry 1)] in
  In (Samples.entry 0)
     (IndexJs.posted (IndexJs.main always_ok (Samples.feed 2) file))
  /\ ~ In (link_text (Samples.entry 0)) (IndexJs.load_history file).
Proof.
  intro file.
  assert (Hin : In (Samples.entry 0)
                   (IndexJs.posted (IndexJs.main always_ok (Samples.feed 2) file)))
    by (vm_compute; now left).
  split; [exact Hin|].
  exact (proj2 (proj2 (proj2 (proj2
           (published_is_new_and_eligible always_ok (Samples.feed 2) file _ Hin))))).
Defined.

(** X2. Outside the first-run safety (a non-empty history, or at most 5
    candidates) nothing is capped: the plan is a rearrangement of the
    eligible entries whose link is not in the history, each planned as
    often as the feed lists it. *)
Theorem plan_is_whole_backlog (items : list Item) (file : StateFile) :
  IndexJs.load_history file <> []
  \/ length (IndexJs.not_posted (IndexJs.load_history file)
               (IndexJs.allValidItems items)) <= 5 ->
  Permutation (IndexJs.plan items file)
              (IndexJs.not_posted (IndexJs.load_history file)
                 (IndexJs.allValidItems items)).
Proof.
  intros [Hne | Hsmall]; unfold IndexJs.plan.
  - rewrite select_keeps_history by assumption. apply array_sort_perm.
  - rewrite select_small by assumption. apply array_sort_perm.
Qed.

Lemma plan_is_whole_backlog_witness :
  Permutation
    (IndexJs.plan (Samples.feed 40) (legacy_file Samples.old_link))
    (IndexJs.not_posted (IndexJs.load_history (legacy_file Samples.old_link))
       (IndexJs.allValidItems (Samples.feed 40))).
Proof.
  apply plan_is_whole_backlog. left. discriminate.
Defined.

(** X3. When every eligible entry of the feed carries a date, the plan
    is in ascending order of timestamps whatever the order of the feed,
    and entries that share a timestamp keep the order in which the
    selection left them, which is the order of the feed. *)
Theorem plan_order_when_dated (items : list Item) (file : StateFile) :
  Forall dated (IndexJs.allValidItems items) ->
  ascending stamp (IndexJs.plan items file)
  /\ (forall v,
        filter (fun a => (stamp a =? v)%Z) (IndexJs.plan items file)
        = filter (fun a => (stamp a =? v)%Z)
            (snd (IndexJs.select items (IndexJs.load_history file))))
  /\ (snd (IndexJs.select items (IndexJs.load_history file))
      = IndexJs.not_posted (IndexJs.load_history file) (IndexJs.allValidItems items)
      \/ snd (IndexJs.select items (IndexJs.load_history file))
         = firstn 1 (IndexJs.allValidItems items)).
Proof.
  intro Hd.
  assert (Hsel : Forall dated (snd (IndexJs.select items (IndexJs.load_history file)))).
  { rewrite Forall_forall in *. intros x Hx. apply Hd.
    assert (Hp : In x (IndexJs.plan items file))
      by (unfold IndexJs.plan; now apply array_sort_In).
    now apply plan_entry in Hp. }
  split; [|split].
  - unfold IndexJs.plan.
    now apply (@array_sort_ascending _ oldest_first stamp dated (@oldest_first_stamp)).
  - intro v. unfold IndexJs.plan.
    now apply (@array_sort_stable _ oldest_first stamp dated (@oldest_first_stamp)).
  - destruct (select_cases items (IndexJs.load_history file)) as [Hs | (_ & _ & Hs)];
      rewrite Hs; simpl; [now left | now right].
Qed.

Lemma plan_order_when_dated_witness :
  ascending stamp (IndexJs.plan (Samples.feed 5) (legacy_file Samples.old_link)).
Proof.
  refine (proj1 (plan_order_when_dated (Samples.feed 5)
                   (legacy_file Samples.old_link) _)).
  vm_compute. repeat constructor.
Defined.

(** X4. A run in which no call succeeds, for want of entries or because
    every call throws, publishes nothing and leaves the state file as it
    found it: the history seeded by the first-run safety is lost with
    the process. *)
Theorem nothing_published_nothing_written
  (ok : nat -> bool) (items : list Item) (file : StateFile) :
  (forall k, k < length (IndexJs.plan items file) -> ok k = false) ->
  IndexJs.posted (IndexJs.main ok items file) = []
  /\ IndexJs.disk (IndexJs.main ok items file) = file.
Proof.
  intro Hko. rewrite main_posted, main_disk.
  rewrite (delivered_none ok (IndexJs.plan items file) 0) by exact Hko.
  now split.
Qed.

Lemma nothing_published_nothing_written_witness :
  IndexJs.posted (IndexJs.main never_ok (Samples.feed 8) Unparsable) = []
  /\ IndexJs.disk (IndexJs.main never_ok (Samples.feed 8) Unparsable) = Unparsable.
Proof.
  apply nothing_published_nothing_written. reflexivity.
Defined.

(** The loop is its body iterated: after [n] turns the state is that of
    the loop run on the first [n] entries, and the rest of the loop
    goes on from there. *)
Lemma turns_prefix (ok : nat -> bool) (l : list Item) :
  forall n k st,
    IndexJs.turns ok n k l st = IndexJs.post_loop ok k (firstn n l) st.
Proof.
  induction l as [|x l IH]; intros [|n] k st; simpl; try reflexivity.
  apply IH.
Qed.

Lemma turns_then_rest (ok : nat -> bool) (l : list Item) :
  forall n k st,
    IndexJs.post_loop ok k l st
    = IndexJs.post_loop ok (k + n) (skipn n l) (IndexJs.turns ok n k l st).
Proof.
  induction l as [|x l IH]; intros [|n] k st; simpl;
    rewrite ?Nat.add_0_r; try reflexivity.
  rewrite (IH n (S k)). unfold IndexJs.iteration.
  now rewrite Nat.add_succ_r.
Qed.

(** X5. The state is saved entry by entry. Take the run at any point
    between two turns of the post loop, after its first [n] turns: if an
    entry has been published by then, the file already holds the
    history as it is in memory, at most 100 links, the last of which is
    the link of the last entry published so far; and the run goes on
    from that state with the remaining entries. *)
Theorem file_ends_with_last_published
  (ok : nat -> bool) (items : list Item) (file : StateFile)
  (n : nat) (before : list Item) (last : Item) :
  let start := {| IndexJs.posted := [];
                  IndexJs.memory := fst (IndexJs.select items (IndexJs.load_history file));
                  IndexJs.disk := file |} in
  let st := IndexJs.turns ok n 0 (IndexJs.plan items file) start in
  IndexJs.posted st = before ++ [last] ->
  IndexJs.disk st = IndexJs.save (IndexJs.memory st)
  /\ (exists h,
        IndexJs.load_history (IndexJs.disk st) = h ++ [link_text last]
        /\ length h < 100)
  /\ IndexJs.main ok items file
     = IndexJs.post_loop ok n (skipn n (IndexJs.plan items file)) st.
Proof.
  intros start st Hp.
  assert (Hst : st = IndexJs.post_loop ok 0 (firstn n (IndexJs.plan items file)) start)
    by apply turns_prefix.
  rewrite Hst in Hp. rewrite post_loop_posted in Hp. simpl in Hp.
  assert (Hdisk : IndexJs.disk st = IndexJs.save (IndexJs.memory st)).
  { rewrite Hst, post_loop_disk, Hp. now destruct before. }
  split; [assumption | split].
  - rewrite Hdisk, load_save, Hst, post_loop_memory, Hp.
    destruct (before ++ [last]) eqn:Hnil; [now destruct before|].
    rewrite <- Hnil, map_app, app_assoc. simpl map.
    destruct (@slice_last_keeps_tail _ 100
                (IndexJs.memory start ++ map link_text before) [link_text last])
      as [c Hc]; [simpl; lia|].
    exists c. split; [assumption|].
    apply (f_equal (@length JsString)) in Hc.
    rewrite slice_last_length, !length_app in Hc.
    change (length [link_text last]) with 1 in Hc. lia.
  - rewrite main_as_loop. apply (turns_then_rest ok (IndexJs.plan items file) n 0).
Qed.

Lemma file_ends_with_last_published_witness :
  let start := {| IndexJs.posted := [];
                  IndexJs.memory := [Samples.old_link];
                  IndexJs.disk := legacy_file Samples.old_link |} in
  let st := IndexJs.turns always_ok 2 0
              [Samples.entry 0; Samples.entry 1; Samples.entry 2] start in
  IndexJs.posted st = [Samples.entry 0; Samples.entry 1]
  /\ IndexJs.disk st
     = IndexJs.save [Samples.old_link; link_text (Samples.entry 0);
                     link_text (Samples.entry 1)]
  /\ IndexJs.disk st = IndexJs.save (IndexJs.memory st).
Proof.
  intros start st. split; [reflexivity | split; [reflexivity|]].
  exact (proj1 (@file_ends_with_last_published always_ok (Samples.feed 3)
                  (legacy_file Samples.old_link) 2
                  [Samples.entry 0] (Samples.entry 1) eq_refl)).
Defined.

(** X6. Migration of a file in the single-link shape: as long as fewer
    than 100 entries are published, the file written by the run is in
    the history shape and holds the old link followed by the links of
    the entries published, in order of publication. *)
Theorem legacy_link_is_kept
  (ok : nat -> bool) (items : list Item) (l : JsString) :
  l <> [] ->
  IndexJs.posted (IndexJs.main ok items (legacy_file l)) <> [] ->
  length (IndexJs.posted (IndexJs.main ok items (legacy_file l))) < 100 ->
  IndexJs.disk (IndexJs.main ok items (legacy_file l))
  = IndexJs.save
      (l :: map link_text (IndexJs.posted (IndexJs.main ok items (legacy_file l)))).
Proof.
  intros Hl Hsome Hfew. rewrite main_posted in *. rewrite main_disk.
  destruct (delivered ok 0 (IndexJs.plan items (legacy_file l))) as [|d ds] eqn:Hd;
    [contradiction|].
  assert (Hh : IndexJs.load_history (legacy_file l) = [l])
    by (destruct l; [contradiction | reflexivity]).
  rewrite Hh, select_keeps_history by discriminate.
  cbn [fst]. rewrite slice_last_short; [reflexivity|].
  rewrite length_app, length_map. change (length [l]) with 1. lia.
Qed.

Lemma legacy_link_is_kept_witness :
  IndexJs.disk (IndexJs.main always_ok (Samples.feed 2) (legacy_file Samples.old_link))
  = IndexJs.save [Samples.old_link; link_text (Samples.entry 0);
                  link_text (Samples.entry 1)].
Proof.
  refine (@legacy_link_is_kept always_ok (Samples.feed 2) Samples.old_link _ _ _).
  - discriminate.
  - discriminate.
  - vm_compute. lia.
Defined.

(** * The advertisement filter *)

Lemma includes_unfold (s pat : JsString) :
  includes s pat =
  starts_with pat s || match s with [] => false | _ :: s' => includes s' pat end.
Proof. destruct s; reflexivity. Qed.

Lemma starts_with_app (pat q : JsString) : starts_with pat (pat ++ q) = true.
Proof.
  induction pat as [|c pat IH]; simpl; [reflexivity|].
  now rewrite N.eqb_refl, IH.
Qed.

Lemma starts_with_split (pat s : JsString) :
  starts_with pat s = true -> exists q, s = pat ++ q.
Proof.
  revert s; induction pat as [|c pat IH]; intros s H.
  - now exists s.
  - destruct s as [|d s]; simpl in H; [discriminate|].
    apply andb_true_iff in H as [Hc Hs]. apply N.eqb_eq in Hc. subst d.
    apply IH in Hs as [q ->]. now exists q.
Qed.

(** [includes] finds the pattern exactly when it occurs somewhere. *)
Lemma includes_iff (s pat : JsString) :
  includes s pat = true <-> exists p q, s = p ++ pat ++ q.
Proof.
  split.
  - induction s as [|c s IH]; rewrite includes_unfold; intro H.
    + rewrite orb_false_r in H. apply starts_with_split in H as [q Hq].
      now exists [], q.
    + apply orb_true_iff in H as [H | H].
      * apply starts_with_split in H as [q Hq]. now exists [], q.
      * apply IH in H as (p & q & ->). now exists (c :: p), q.
  - intros (p & q & ->). induction p as [|c p IH].
    + rewrite includes_unfold. simpl app. now rewrite starts_with_app.
    + change (includes ((c :: p) ++ pat ++ q) pat)
        with (starts_with pat (c :: p ++ pat ++ q) || includes (p ++ pat ++ q) pat).
      rewrite IH. apply orb_true_r.
Qed.

(** X7. An entry whose title contains the subscription advertisement,
    at any position, is not eligible, is never planned and never
    reaches the timeline, whatever the state and the outcome of the
    calls. *)
Theorem advertisement_never_published
  (ok : nat -> bool) (items : list Item) (file : StateFile) (item : Item)
  (p q : JsString) :
  title item = Some (p ++ IndexJs.marker ++ q) ->
  ~ In item (IndexJs.plan items file)
  /\ ~ In item (IndexJs.posted (IndexJs.main ok items file))
  /\ ~ In item (IndexJs.allValidItems items).
Proof.
  intro Ht.
  assert (Hnot : ~ In item (IndexJs.allValidItems items)).
  { intro Hin. apply allValidItems_In in Hin as (_ & _ & _ & Hm).
    assert (Hinc : includes (p ++ IndexJs.marker ++ q) IndexJs.marker = true)
      by (apply includes_iff; now exists p, q).
    unfold title_includes in Hm. rewrite Ht, Hinc in Hm. discriminate. }
  split; [|split]; [| |assumption].
  - intro Hin. now apply plan_entry in Hin.
  - rewrite main_posted. intro Hin. apply delivered_in_plan in Hin.
    now apply plan_entry in Hin.
Qed.

Lemma advertisement_never_published_witness :
  ~ In Samples.advert
       (IndexJs.posted
          (IndexJs.main always_ok (Samples.advert :: Samples.feed 3)
             (legacy_file Samples.old_link))).
Proof.
  refine (proj1 (proj2 (@advertisement_never_published always_ok
                          (Samples.advert :: Samples.feed 3)
                          (legacy_file Samples.old_link) Samples.advert
                          (js "BBC: ") (js " ...") _))).
  reflexivity.
Defined.

(** * The requests and the card of [postToBluesky] *)

Lemma encoding_of_named (contentType : JsProp) : IndexJs.encoding_of contentType <> [].
Proof. destruct contentType as [[|c s]|]; discriminate. Qed.

Lemma fetch_image_cases (w : IndexJs.Web) (url : JsProp) :
  let (requests, blob) := IndexJs.fetch_image w url in
  (forall card thumb, ~ In (IndexJs.Post card thumb) requests)
  /\ (forall size enc,
        In (IndexJs.Upload size enc) requests ->
        (size < 950000)%N /\ exists ct, enc = IndexJs.encoding_of ct)
  /\ (forall b,
        blob = Some b <->
        exists u size ct,
          IndexJs.page w url = Some (Some u) /\ u <> []
          /\ IndexJs.picture w u = Some (size, ct)
          /\ (size < 950000)%N
          /\ IndexJs.store w size (IndexJs.encoding_of ct) = Some b).
Proof.
  unfold IndexJs.fetch_image.
  destruct (IndexJs.page w url) as [[[|c u]|]|] eqn:Hpage.
  1, 3, 4:
    (split; [|split];
     [ intros card thumb [H | []]; discriminate
     | intros size enc [H | []]; discriminate
     | intro b; split; [discriminate|];
       intros (u & size & ct & Hu & Hne & _); congruence ]).
  destruct (IndexJs.picture w (c :: u)) as [[size ct]|] eqn:Hpic.
  - destruct (N.ltb_spec size 950000) as [Hlt | Hge].
    + split; [|split].
      * intros card thumb [H | [H | [H | []]]]; discriminate.
      * intros size' enc [H | [H | [H | []]]]; try discriminate.
        injection H as <- <-. split; [assumption | now exists ct].
      * intro b. split.
        -- intro Hb. exists (c :: u), size, ct.
           repeat split; try assumption. discriminate.
        -- intros (u' & size' & ct' & Hu & _ & Hp & _ & Hs).
           injection Hu as <-. rewrite Hpic in Hp. injection Hp as <- <-.
           assumption.
    + split; [|split].
      * intros card thumb [H | [H | []]]; discriminate.
      * intros size' enc [H | [H | []]]; discriminate.
      * intro b. split; [discriminate|].
        intros (u' & size' & ct' & Hu & _ & Hp & Hlt & _).
        injection Hu as <-. rewrite Hpic in Hp. injection Hp as <- <-. lia.
  - split; [|split].
    + intros card thumb [H | [H | []]]; discriminate.
    + intros size' enc [H | [H | []]]; discriminate.
    + intro b. split; [discriminate|].
      intros (u' & size' & ct' & Hu & _ & Hp & _).
      injection Hu as <-. congruence.
Qed.

(** X8. For an entry with a title whose facets are detected, whatever
    happens while the image is scraped, the call sends exactly one post,
    as its last request, with the card of the entry; the card carries a
    thumbnail exactly when the page names a non-empty image address, the
    image downloads, weighs less than 950000 bytes and its upload
    returns a blob, and that blob is the thumbnail. The call returns
    exactly when that post is accepted. *)
Theorem post_survives_image_failure
  (w : IndexJs.Web) (item : Item) (card : Embed) :
  IndexJs.embed item = Some card ->
  IndexJs.facets w (embed_title card) = true ->
  exists requests thumb,
    IndexJs.postToBluesky w item
    = (requests ++ [IndexJs.Post card thumb], IndexJs.publish w card thumb)
    /\ (forall c t, ~ In (IndexJs.Post c t) requests)
    /\ (forall b,
          thumb = Some b <->
          exists u size ct,
            IndexJs.page w (link item) = Some (Some u) /\ u <> []
            /\ IndexJs.picture w u = Some (size, ct)
            /\ (size < 950000)%N
            /\ IndexJs.store w size (IndexJs.encoding_of ct) = Some b).
Proof.
  intros He Hf. unfold IndexJs.postToBluesky. rewrite He.
  pose proof (fetch_image_cases w (link item)) as H.
  destruct (IndexJs.fetch_image w (link item)) as [requests blob].
  destruct H as (Hpost & _ & Hthumb). rewrite Hf.
  exists requests, blob. repeat split; try assumption; now apply Hthumb.
Qed.

Lemma post_survives_image_failure_witness :
  exists requests,
    IndexJs.postToBluesky (Samples.web 950000) (Samples.entry 0)
    = (requests ++ [IndexJs.Post
                      {| uri := link (Samples.entry 0);
                         embed_title := js "Haber";
                         description := js "Ozet..." |} None],
       true).
Proof.
  destruct (@post_survives_image_failure (Samples.web 950000) (Samples.entry 0)
              _ eq_refl eq_refl) as (requests & thumb & Hcall & _ & Hthumb).
  exists requests. rewrite Hcall.
  destruct thumb as [b|]; [|reflexivity].
  destruct (proj1 (Hthumb b) eq_refl) as (u & size & ct & _ & _ & Hp & Hlt & _).
  vm_compute in Hp. injection Hp as <- _. vm_compute in Hlt. discriminate.
Defined.

(** X9. What a call never sends: an upload of 950000 bytes or more, an
    upload without a content type (a missing or empty header is
    replaced by image/jpeg), a second post; and nothing at all when the
    entry has no title, in which case the call throws. *)
Theorem requests_are_bounded (w : IndexJs.Web) (item : Item) :
  (forall size enc,
      In (IndexJs.Upload size enc) (fst (IndexJs.postToBluesky w item)) ->
      (size < 950000)%N /\ enc <> []
      /\ exists ct, enc = IndexJs.encoding_of ct)
  /\ (forall c1 t1 c2 t2 before mid after,
        fst (IndexJs.postToBluesky w item)
        <> before ++ IndexJs.Post c1 t1 :: mid ++ IndexJs.Post c2 t2 :: after)
  /\ (title item = None -> IndexJs.postToBluesky w item = ([], false)).
Proof.
  unfold IndexJs.postToBluesky, IndexJs.embed.
  destruct (title item) as [t|].
  2: { split; [|split].
       - intros ? ? [].
       - intros c1 t1 c2 t2 before mid after Heq. now destruct before.
       - reflexivity. }
  pose proof (fetch_image_cases w (link item)) as H.
  destruct (IndexJs.fetch_image w (link item)) as [requests blob].
  destruct H as (Hpost & Hup & _).
  set (card := {| uri := link item; embed_title := trim t;
                  description := IndexJs.desc item |}) in *.
  assert (Hupload : forall size enc,
             In (IndexJs.Upload size enc) requests ->
             (size < 950000)%N /\ enc <> [] /\ exists ct, enc = IndexJs.encoding_of ct).
  { intros size enc Hin. destruct (Hup size enc Hin) as (Hlt & ct & ->).
    repeat split; [assumption | apply encoding_of_named | now exists ct]. }
  split; [|split]; [| |discriminate].
  - intros size enc Hin. apply Hupload.
    destruct (IndexJs.facets w (embed_title card)); simpl in Hin; [|assumption].
    apply in_app_or in Hin as [Hin | [Hin | []]]; [assumption | discriminate].
  - intros c1 t1 c2 t2 before mid after Heq.
    destruct (IndexJs.facets w (embed_title card)); simpl in Heq.
    + assert (Hin : In (IndexJs.Post c1 t1) requests).
      { assert (Hlast : requests ++ [IndexJs.Post card blob]
                        = (before ++ IndexJs.Post c1 t1 :: mid) ++ [IndexJs.Post c2 t2] ++ after)
          by (rewrite Heq, <- app_assoc; reflexivity).
        destruct (rev after) as [|z ra] eqn:Hra.
        - apply (f_equal (@rev IndexJs.Request)) in Hra. rewrite rev_involutive in Hra.
          simpl in Hra. subst after. rewrite app_nil_r in Hlast.
          apply app_inj_tail in Hlast as [-> _].
          apply in_or_app. right. now left.
        - apply (f_equal (@rev IndexJs.Request)) in Hra. rewrite rev_involutive in Hra.
          simpl in Hra. subst after.
          rewrite !app_assoc in Hlast. apply app_inj_tail in Hlast as [-> _].
          apply in_or_app. left. apply in_or_app. left.
          apply in_or_app. right. now left. }
      exact (Hpost _ _ Hin).
    + apply (Hpost c1 t1). rewrite Heq. apply in_or_app. right. now left.
Qed.

Lemma requests_are_bounded_witness :
  In (IndexJs.Upload 100 (js "image/jpeg"))
     (fst (IndexJs.postToBluesky (Samples.web 100) (Samples.entry 0)))
  /\ (100 < 950000)%N.
Proof.
  assert (Hin : In (IndexJs.Upload 100 (js "image/jpeg"))
                   (fst (IndexJs.postToBluesky (Samples.web 100) (Samples.entry 0))))
    by (vm_compute; right; right; now left).
  split; [exact Hin|].
  exact (proj1 (proj1 (requests_are_bounded (Samples.web 100) (Samples.entry 0))
                  100%N (js "image/jpeg") Hin)).
Defined.

Lemma trim_start_split (s : JsString) :
  exists p, s = p ++ trim_start s /\ forallb is_space p = true.
Proof.
  induction s as [|c s (p & Hs & Hp)]; simpl.
  - now exists [].
  - destruct (is_space c) eqn:Hc.
    + exists (c :: p). simpl. rewrite Hc, Hp. split; [now f_equal | reflexivity].
    + now exists [].
Qed.

Lemma trim_start_head (s : JsString) (c : N) (r : JsString) :
  trim_start s = c :: r -> is_space c = false.
Proof.
  induction s as [|d s IH]; simpl; [discriminate|].
  destruct (is_space d) eqn:Hd; [assumption|].
  intro H. injection H as -> _. assumption.
Qed.

Lemma forallb_rev (A : Type) (f : A -> bool) (l : list A) :
  forallb f l = true -> forallb f (rev l) = true.
Proof.
  rewrite !forallb_forall. intros H x Hx. apply H. now apply in_rev.
Qed.

(** X10. The title on the card is the title of the entry with white
    space removed at both ends and nowhere else: the title is the card
    title between two runs of white space, and the card title neither
    starts nor ends with white space. *)
Theorem card_title_is_trimmed (item : Item) (t : JsString) (card : Embed) :
  title item = Some t ->
  IndexJs.embed item = Some card ->
  (exists p q,
      t = p ++ embed_title card ++ q
      /\ forallb is_space p = true /\ forallb is_space q = true)
  /\ (forall c r, embed_title card = c :: r -> is_space c = false)
  /\ (forall r c, embed_title card = r ++ [c] -> is_space c = false).
Proof.
  intros Ht He. unfold IndexJs.embed in He. rewrite Ht in He.
  injection He as <-. simpl. unfold trim.
  destruct (trim_start_split t) as (p & Hp & Hps).
  destruct (trim_start_split (rev (trim_start t))) as (q & Hq & Hqs).
  set (u := trim_start t) in *. set (v := trim_start (rev u)) in *.
  assert (Hu : u = rev v ++ rev q).
  { rewrite <- (rev_involutive u), Hq, rev_app_distr. reflexivity. }
  split; [|split].
  - exists p, (rev q). repeat split.
    + now rewrite <- Hu.
    + assumption.
    + now apply forallb_rev.
  - intros c r Hc. rewrite Hc in Hu. simpl in Hu.
    now apply (trim_start_head t Hu).
  - intros r c Hc. apply (f_equal (@rev N)) in Hc.
    rewrite rev_involutive, rev_app_distr in Hc. simpl in Hc.
    now apply (trim_start_head (rev u) Hc).
Qed.

Lemma card_title_is_trimmed_witness :
  exists p q,
    js " Haber " = p ++ js "Haber" ++ q
    /\ forallb is_space p = true /\ forallb is_space q = true.
Proof.
  exact (proj1 (@card_title_is_trimmed Samples.wordy (js " Haber ") _ eq_refl eq_refl)).
Defined.

(** * The runs of [src/unnamed/part_000] *)

Lemma strict_eq_refl (a : JsProp) : strict_eq a a = true.
Proof. now apply strict_eq_eq. Qed.

Lemma findIndex_Some (A : Type) (p : A -> bool) (l : list A) (n : nat) :
  findIndex p l = Some n ->
  (forall x, In x (firstn n l) -> p x = false)
  /\ exists y, nth_error l n = Some y /\ p y = true.
Proof.
  revert n; induction l as [|x l IH]; intros n H; simpl in H; [discriminate|].
  destruct (p x) eqn:Hx.
  - injection H as <-. split; [intros y []|]. now exists x.
  - destruct (findIndex p l) as [m|]; [|discriminate].
    injection H as <-. destruct (IH m eq_refl) as (Hbefore & y & Hy & Hpy).
    split; [|now exists y].
    intros z [<- | Hz]; [assumption | now apply Hbefore].
Qed.

(** X11. On a feed that is not empty, the plan of the last-link script,
    when there is one, is the top of the feed: its first [n] entries
    for some [n] of at least 1, oldest first, and none of them carries
    the stored link. *)
Theorem plan_is_top_of_feed (items : list Item) (file : StateFile)
  (pl : list (option Item)) :
  items <> [] ->
  LastLink.plan items file = Some pl ->
  exists n,
    1 <= n
    /\ pl = map Some (rev (firstn n items))
    /\ (forall x, In x (firstn n items) -> link x <> LastLink.load_last_link file).
Proof.
  intros Hne Hpl. unfold LastLink.plan, LastLink.catch_up in Hpl.
  assert (Hneq : forall n,
             (forall x, In x (firstn n items) ->
                        strict_eq (link x) (LastLink.load_last_link file) = false) ->
             forall x, In x (firstn n items) -> link x <> LastLink.load_last_link file).
  { intros n H x Hx Heq. apply strict_eq_eq in Heq. rewrite (H x Hx) in Heq.
    discriminate. }
  destruct (findIndex _ items) as [[|k]|] eqn:Hfind.
  - discriminate.
  - injection Hpl as <-. exists (S k). split; [lia|].
    split; [unfold slice0; now rewrite map_rev|].
    apply Hneq. now apply findIndex_Some in Hfind.
  - assert (Hall : forall n x, In x (firstn n items) ->
                     strict_eq (link x) (LastLink.load_last_link file) = false).
    { intros n x Hx. apply (proj1 (findIndex_None _ items) Hfind).
      rewrite <- (firstn_skipn n items). apply in_or_app. now left. }
    destruct (strict_eq (LastLink.load_last_link file) (Some [])).
    + injection Hpl as <-. exists 1. split; [lia|].
      split; [|apply Hneq, Hall].
      destruct items; [contradiction | reflexivity].
    + injection Hpl as <-. exists 3. split; [lia|].
      split; [unfold slice0; now rewrite map_rev | apply Hneq, Hall].
Qed.

Lemma plan_is_top_of_feed_witness :
  exists n,
    1 <= n
    /\ [Some (Samples.entry 1); Some (Samples.entry 2)]
       = map Some (rev (firstn n (Samples.feed 3)))
    /\ (forall x, In x (firstn n (Samples.feed 3)) ->
                  link x <> LastLink.load_last_link
                              (legacy_file (link_text (Samples.entry 0)))).
Proof.
  apply plan_is_top_of_feed; [discriminate | reflexivity].
Defined.

Lemma post_loop_entries (ok : nat -> bool) (l : list Item) :
  forall j,
    (forall i, i < length l -> ok (j + i) = true) ->
    LastLink.post_loop ok j (map Some l) = (l, true).
Proof.
  induction l as [|x l IH]; intros j H; simpl; [reflexivity|].
  rewrite <- (Nat.add_0_r j) at 1. rewrite (H 0) by (simpl; lia).
  rewrite IH; [reflexivity|]. intros i Hi.
  rewrite Nat.add_succ_l, <- Nat.add_succ_r. apply H. simpl. lia.
Qed.

Lemma post_loop_stops (ok : nat -> bool) (l : list Item) :
  forall j k,
    k < length l ->
    (forall i, i < k -> ok (j + i) = true) ->
    ok (j + k) = false ->
    LastLink.post_loop ok j (map Some l) = (firstn k l, false).
Proof.
  induction l as [|x l IH]; intros j k Hk Hbefore Hfail; simpl in Hk; [lia|].
  destruct k as [|k]; simpl.
  - rewrite Nat.add_0_r in Hfail. now rewrite Hfail.
  - rewrite <- (Nat.add_0_r j) at 1. rewrite (Hbefore 0) by lia.
    rewrite (IH (S j) k); [reflexivity | lia | |].
    + intros i Hi. rewrite Nat.add_succ_l, <- Nat.add_succ_r. apply Hbefore. lia.
    + now rewrite Nat.add_succ_l, <- Nat.add_succ_r.
Qed.

(** X12. The loop of the last-link script has no [try]: when the call
    for the entry at position [k] of the plan is the first to throw, the
    run ends there, the [k] entries before it are on the timeline, and
    the state file is not touched, so that the next run finds the state
    it started from. *)
Theorem failure_aborts_the_run
  (ok : nat -> bool) (items : list Item) (file : StateFile)
  (l : list Item) (k : nat) :
  LastLink.plan items file = Some (map Some l) ->
  k < length l ->
  (forall i, i < k -> ok i = true) ->
  ok k = false ->
  LastLink.main ok items file
  = {| LastLink.posted := firstn k l;
       LastLink.disk := file;
       LastLink.completed := false |}.
Proof.
  intros Hpl Hk Hbefore Hfail. unfold LastLink.main. rewrite Hpl.
  now rewrite (post_loop_stops ok l 0 Hk Hbefore Hfail).
Qed.

Lemma failure_aborts_the_run_witness :
  LastLink.main (fails_at 1) (Samples.feed 8) (legacy_file Samples.old_link)
  = {| LastLink.posted := [Samples.entry 5];
       LastLink.disk := legacy_file Samples.old_link;
       LastLink.completed := false |}.
Proof.
  apply (@failure_aborts_the_run (fails_at 1) (Samples.feed 8)
           (legacy_file Samples.old_link)
           [Samples.entry 5; Samples.entry 6; Samples.entry 7] 1).
  - reflexivity.
  - simpl. lia.
  - intros i Hi. destruct i; [reflexivity | lia].
  - reflexivity.
Defined.

(** X13. After a run of the last-link script that returns, a second
    run on the same feed finds the link of the first entry of the feed
    in the state and returns at once: it plans nothing and publishes
    nothing, whatever its calls would have answered. *)
Theorem completed_run_is_not_repeated
  (ok ok' : nat -> bool) (items : list Item) (file : StateFile) :
  LastLink.completed (LastLink.main ok items file) = true ->
  LastLink.plan items (LastLink.disk (LastLink.main ok items file)) = None
  /\ LastLink.posted
       (LastLink.main ok' items (LastLink.disk (LastLink.main ok items file))) = [].
Proof.
  intro Hc.
  assert (Hplan : LastLink.plan items (LastLink.disk (LastLink.main ok items file))
                  = None).
  { unfold LastLink.main in *.
    destruct (LastLink.plan items file) as [newItems|] eqn:Hpl; [|assumption].
    destruct (LastLink.post_loop ok 0 newItems) as [p [|]]; [|discriminate].
    destruct items as [|first rest]; [discriminate|]. simpl.
    unfold LastLink.plan, LastLink.catch_up. simpl.
    now rewrite strict_eq_refl. }
  split; [assumption|]. unfold LastLink.main at 1. now rewrite Hplan.
Qed.

Lemma completed_run_is_not_repeated_witness :
  let file := LastLink.disk (LastLink.main always_ok (Samples.feed 8)
                               (legacy_file Samples.old_link)) in
  LastLink.plan (Samples.feed 8) file = None
  /\ LastLink.posted (LastLink.main always_ok (Samples.feed 8) file) = [].
Proof.
  intro file.
  apply (completed_run_is_not_repeated always_ok always_ok (Samples.feed 8)
           (legacy_file Samples.old_link)).
  reflexivity.
Defined.

(** X14. On an empty feed the last-link script always ends with an
    exception, after publishing nothing and without writing the state:
    on a first run the entry to post is [undefined], otherwise saving
    the state reads the link of an entry that does not exist. *)
Theorem empty_feed_throws (ok : nat -> bool) (file : StateFile) :
  LastLink.main ok [] file
  = {| LastLink.posted := [];
       LastLink.disk := file;
       LastLink.completed := false |}.
Proof.
  unfold LastLink.main, LastLink.plan, LastLink.catch_up. simpl.
  destruct (strict_eq (LastLink.load_last_link file) (Some [])); reflexivity.
Qed.

(** * The runs of the timestamp script of [src/README.md] *)

Lemma newest_first_stamp (x y : Item) :
  dated x -> dated y -> newest_first x y = Some (- stamp x - - stamp y)%Z.
Proof.
  unfold dated, newest_first, oldest_first. intros -> ->. f_equal. lia.
Qed.

Lemma allItems_dated (items : list Item) : Forall dated (TimeMark.allItems items).
Proof.
  rewrite Forall_forall. intros x Hx. now apply allItems_In in Hx.
Qed.

(** [allItems] lists the eligible entries newest first. *)
Lemma allItems_newest_first (items : list Item) :
  ascending (fun i => (- stamp i)%Z) (TimeMark.allItems items).
Proof.
  unfold TimeMark.allItems.
  apply (@array_sort_ascending _ newest_first (fun i => (- stamp i)%Z) dated
           (@newest_first_stamp)).
  rewrite Forall_forall. intros x Hx. apply filter_In in Hx as [_ Hx].
  rewrite !andb_true_iff in Hx. destruct Hx as [[[_ _] Hd] _].
  unfold dated, stamp, TimeMark.has_date in *.
  destruct (isoDate x); [reflexivity | discriminate].
Qed.

(** The value of [lastPostedTime] is never [NaN]. *)
Lemma load_time_number (file : StateFile) (items : list Item) :
  exists t, TimeMark.load_time file (TimeMark.allItems items) = Some t.
Proof.
  destruct file as [| |s]; simpl; try (now exists 0%Z).
  destruct (last_time s) as [t|]; [now exists t|].
  destruct (truthy (last_link s)); [|now exists 0%Z].
  destruct (find _ (TimeMark.allItems items)) as [found|] eqn:Hfind;
    [|now exists 0%Z].
  apply find_some in Hfind as [Hin _]. apply allItems_In in Hin as (_ & _ & _ & Hd).
  now exists (stamp found).
Qed.

Lemma plan_first_run (items : list Item) (file : StateFile) :
  TimeMark.load_time file (TimeMark.allItems items) = Some 0%Z ->
  TimeMark.plan items file = [nth_error (TimeMark.allItems items) 0].
Proof. unfold TimeMark.plan. now intros ->. Qed.

Lemma plan_later (items : list Item) (file : StateFile) (t0 : Z) :
  TimeMark.load_time file (TimeMark.allItems items) = Some t0 ->
  t0 <> 0%Z ->
  TimeMark.plan items file
  = map Some (array_sort oldest_first
                (filter (TimeMark.newer_than (Some t0)) (TimeMark.allItems items))).
Proof.
  unfold TimeMark.plan. intros -> Hnz. destruct t0; [contradiction | |]; reflexivity.
Qed.

Lemma newer_than_stamp (t0 : Z) (i : Item) :
  dated i -> TimeMark.newer_than (Some t0) i = true <-> (t0 < stamp i)%Z.
Proof.
  unfold dated, TimeMark.newer_than. intros ->. apply Z.ltb_lt.
Qed.

(** After the mark [t0], the planned entries are the eligible entries
    stamped later than [t0]. *)
Lemma plan_later_In (items : list Item) (file : StateFile) (t0 : Z) (x : Item) :
  TimeMark.load_time file (TimeMark.allItems items) = Some t0 ->
  t0 <> 0%Z ->
  In (Some x) (TimeMark.plan items file)
  <-> In x (TimeMark.allItems items) /\ (t0 < stamp x)%Z.
Proof.
  intros Ht Hnz. rewrite (plan_later items file Ht Hnz).
  rewrite in_map_iff. split.
  - intros (y & Hy & Hin). injection Hy as ->.
    apply array_sort_In, filter_In in Hin as [Hin Hnew].
    split; [assumption|]. apply newer_than_stamp; [|assumption].
    now apply allItems_In in Hin.
  - intros [Hin Hlt]. exists x. split; [reflexivity|].
    apply array_sort_In, filter_In. split; [assumption|].
    apply newer_than_stamp; [|assumption]. now apply allItems_In in Hin.
Qed.

Lemma plan_later_ascending (items : list Item) (t0 : option Z) :
  ascending stamp
    (array_sort oldest_first
       (filter (TimeMark.newer_than t0) (TimeMark.allItems items))).
Proof.
  apply (@array_sort_ascending _ oldest_first stamp dated (@oldest_first_stamp)).
  rewrite Forall_forall. intros x Hx. apply filter_In in Hx as [Hx _].
  now apply allItems_In in Hx.
Qed.

Lemma ascending_last (A : Type) (key : A -> Z) (l : list A) (x : A) :
  ascending key (l ++ [x]) -> forall i, In i (l ++ [x]) -> (key i <= key x)%Z.
Proof.
  unfold ascending. induction l as [|y l IH]; simpl; intros Hs i Hi.
  - destruct Hi as [<- | []]. lia.
  - inversion Hs as [|? ? Hs' Hall]; subst. destruct Hi as [<- | Hi].
    + rewrite Forall_forall in Hall. apply Hall, in_or_app. right. now left.
    + now apply IH.
Qed.

Lemma map_Some_snoc (A : Type) (l : list A) (before : list (option A)) (x : A) :
  map Some l = before ++ [Some x] -> exists l', l = l' ++ [x].
Proof.
  intro H. destruct (rev l) as [|y r] eqn:Hr.
  - apply (f_equal (@rev A)) in Hr. rewrite rev_involutive in Hr. subst l.
    now destruct before.
  - apply (f_equal (@rev A)) in Hr. rewrite rev_involutive in Hr. simpl in Hr.
    subst l. rewrite map_app in H. simpl in H.
    apply app_inj_tail in H as [_ H]. injection H as ->. now exists (rev r).
Qed.

(** The last entry of a plan is the newest eligible entry of the feed. *)
Lemma last_planned_is_newest
  (items : list Item) (file : StateFile) (before : list (option Item)) (x : Item) :
  TimeMark.plan items file = before ++ [Some x] ->
  In x (TimeMark.allItems items)
  /\ forall i, In i (TimeMark.allItems items) -> (stamp i <= stamp x)%Z.
Proof.
  intro Hpl. destruct (load_time_number file items) as [t0 Ht].
  destruct (Z.eq_dec t0 0) as [-> | Hnz].
  - rewrite (plan_first_run items file Ht) in Hpl.
    destruct before as [|b before]; [|now destruct before].
    injection Hpl as Hx.
    pose proof (allItems_newest_first items) as Hs.
    destruct (TimeMark.allItems items) as [|y rest]; [discriminate|].
    injection Hx as ->. split; [now left|].
    inversion Hs as [|? ? _ Hall]; subst. rewrite Forall_forall in Hall.
    intros i [<- | Hi]; [lia|]. specialize (Hall i Hi). simpl in Hall. lia.
  - assert (Hin : In (Some x) (TimeMark.plan items file))
      by (rewrite Hpl; apply in_or_app; right; now left).
    apply (plan_later_In items file x Ht Hnz) in Hin as [Hin Hlt].
    split; [assumption|]. intros i Hi.
    destruct (Z.lt_ge_cases t0 (stamp i)) as [Hnew | Hold]; [|lia].
    rewrite (plan_later items file Ht Hnz) in Hpl.
    destruct (@map_Some_snoc _ _ _ _ Hpl) as [l' Hl'].
    pose proof (plan_later_ascending items (Some t0)) as Hs. rewrite Hl' in Hs.
    apply (@ascending_last _ stamp l' x Hs). rewrite <- Hl'.
    apply array_sort_In, filter_In. split; [assumption|].
    apply newer_than_stamp; [now apply allItems_In in Hi | assumption].
Qed.

Lemma timestamp_plan_dated (items : list Item) (file : StateFile) (a : Item) :
  In (Some a) (TimeMark.plan items file) -> dated a.
Proof.
  destruct (load_time_number file items) as [t0 Ht].
  destruct (Z.eq_dec t0 0) as [-> | Hnz].
  - rewrite (plan_first_run items file Ht). intros [Ha | []].
    apply nth_error_In in Ha. now apply allItems_In in Ha.
  - intro Ha. apply (plan_later_In items file a Ht Hnz) in Ha as [Ha _].
    now apply allItems_In in Ha.
Qed.

(** X15. The plan of the timestamp script is always in ascending order
    of timestamps: its filter keeps dated entries only, so of two
    planned entries the one with the strictly smaller timestamp is
    published first, whatever the feed and the state; and every planned
    entry is a dated entry of the feed with a title and a link. *)
Theorem timestamp_plan_is_chronological (items : list Item) (file : StateFile) :
  (forall i j a b,
      nth_error (TimeMark.plan items file) i = Some (Some a) ->
      nth_error (TimeMark.plan items file) j = Some (Some b) ->
      (stamp a < stamp b)%Z -> i < j)
  /\ (forall a, In (Some a) (TimeMark.plan items file) ->
                In a items /\ dated a
                /\ truthy (title a) = true /\ truthy (link a) = true).
Proof.
  destruct (load_time_number file items) as [t0 Ht].
  destruct (Z.eq_dec t0 0) as [-> | Hnz].
  - rewrite (plan_first_run items file Ht). split.
    + intros [|i] [|j] a b Hi Hj Hlt; simpl in Hi, Hj;
        try (destruct i; discriminate); try (destruct j; discriminate).
      rewrite Hi in Hj. injection Hj as ->. lia.
    + intros a [Ha | []]. apply nth_error_In in Ha.
      apply allItems_In in Ha. tauto.
  - split.
    + rewrite (plan_later items file Ht Hnz). intros i j a b Hi Hj.
      rewrite nth_error_map in Hi, Hj.
      destruct (nth_error _ i) as [a'|] eqn:Hi'; [|discriminate].
      destruct (nth_error _ j) as [b'|] eqn:Hj'; [|discriminate].
      injection Hi as ->. injection Hj as ->.
      exact (sorted_index_order (plan_later_ascending items (Some t0)) _ _ Hi' Hj').
    + intros a Ha. apply (plan_later_In items file a Ht Hnz) in Ha as [Ha _].
      apply allItems_In in Ha. tauto.
Qed.

Lemma timestamp_plan_is_chronological_witness :
  TimeMark.plan (rev (Samples.feed 4)) (legacy_file (link_text (Samples.entry 1)))
  = [Some (Samples.entry 2); Some (Samples.entry 3)]
  /\ 0 < 1.
Proof.
  split; [reflexivity|].
  apply (proj1 (timestamp_plan_is_chronological (rev (Samples.feed 4))
                  (legacy_file (link_text (Samples.entry 1))))
           0 1 (Samples.entry 2) (Samples.entry 3));
    [reflexivity | reflexivity | vm_compute; reflexivity].
Defined.

(** The loop of the timestamp script on a plan without [undefined]. *)
Lemma timestamp_loop (ok : nat -> bool) (l : list Item) :
  forall k st,
    TimeMark.post_loop ok k (map Some l) st
    = {| TimeMark.posted := TimeMark.posted st ++ delivered ok k l;
         TimeMark.disk := match rev (delivered ok k l) with
                          | [] => TimeMark.disk st
                          | y :: _ => TimeMark.save y
                          end;
         TimeMark.crashed := match delivered ok k l with
                             | [] => TimeMark.crashed st
                             | _ :: _ => false
                             end |}.
Proof.
  induction l as [|x l IH]; intros k st; simpl.
  - rewrite app_nil_r. now destruct st.
  - rewrite IH. destruct (ok k); simpl; [|reflexivity].
    rewrite <- app_assoc. f_equal.
    + destruct (rev (delivered ok (S k) l)); reflexivity.
    + now destruct (delivered ok (S k) l).
Qed.

(** A plan holds [undefined] only on a first run without eligible
    entries. *)
Lemma plan_entries (items : list Item) (file : StateFile) :
  (TimeMark.load_time file (TimeMark.allItems items) = Some 0%Z
   /\ TimeMark.allItems items = []
   /\ TimeMark.plan items file = [None])
  \/ exists l,
       TimeMark.plan items file = map Some l /\ ascending stamp l.
Proof.
  destruct (load_time_number file items) as [t0 Ht].
  destruct (Z.eq_dec t0 0) as [-> | Hnz].
  - rewrite (plan_first_run items file Ht).
    destruct (TimeMark.allItems items) as [|x rest]; [now left|].
    right. exists [x]. split; [reflexivity | repeat constructor].
  - right. rewrite (plan_later items file Ht Hnz). eexists. split; [reflexivity|].
    apply plan_later_ascending.
Qed.

Lemma delivered_ascending (ok : nat -> bool) (key : Item -> Z) (l : list Item) :
  forall k, ascending key l -> ascending key (delivered ok k l).
Proof.
  unfold ascending. induction l as [|x l IH]; intros k Hs; simpl; [constructor|].
  inversion Hs as [|? ? Hs' Hall]; subst.
  destruct (ok k); [|now apply IH].
  constructor; [now apply IH|].
  rewrite Forall_forall in *. intros y Hy. apply Hall.
  eapply delivered_in_plan; eassumption.
Qed.

(** After a run that published something, the state holds the link and
    the date of the last entry published, and the next run on the same
    feed plans only entries stamped strictly later. *)
Lemma next_plan_is_newer
  (ok : nat -> bool) (items : list Item) (file : StateFile)
  (before : list Item) (y : Item) :
  TimeMark.posted (TimeMark.main ok items file) = before ++ [y] ->
  stamp y <> 0%Z ->
  TimeMark.disk (TimeMark.main ok items file) = TimeMark.save y
  /\ forall x,
       In (Some x) (TimeMark.plan items (TimeMark.disk (TimeMark.main ok items file)))
       <-> In x (TimeMark.allItems items) /\ (stamp y < stamp x)%Z.
Proof.
  intros Hp Hnz. unfold TimeMark.main in *.
  destruct (plan_entries items file) as [(_ & _ & Hpl) | (l & Hpl & _)];
    rewrite Hpl in *.
  - simpl in Hp. now destruct before.
  - rewrite timestamp_loop in *. simpl in *.
    assert (Hy : In y l).
    { apply (delivered_in_plan ok l 0). rewrite Hp. apply in_or_app. right. now left. }
    assert (Hd : dated y).
    { assert (Hin : In (Some y) (TimeMark.plan items file))
        by (rewrite Hpl; now apply in_map).
      now apply timestamp_plan_dated in Hin. }
    rewrite Hp, rev_app_distr. simpl. split; [reflexivity|].
    intro x. apply plan_later_In; [|assumption].
    unfold TimeMark.save, TimeMark.load_time. simpl. now rewrite Hd.
Qed.

Lemma snoc_cases (A : Type) (l : list A) : l = [] \/ exists l' y, l = l' ++ [y].
Proof.
  destruct (rev l) as [|y r] eqn:Hr; apply (f_equal (@rev A)) in Hr;
    rewrite rev_involutive in Hr; simpl in Hr.
  - now left.
  - right. now exists (rev r), y.
Qed.

(** X16. On a first run or after a reset (no usable timestamp in the
    state), when the feed has an eligible entry, the timestamp script
    plans exactly one entry, the most recent eligible entry of the feed
    wherever the feed lists it; when its call returns, the state holds
    its link and date. *)
Theorem first_run_posts_the_newest
  (ok : nat -> bool) (items : list Item) (file : StateFile) :
  TimeMark.load_time file (TimeMark.allItems items) = Some 0%Z ->
  TimeMark.allItems items <> [] ->
  exists x,
    TimeMark.plan items file = [Some x]
    /\ In x (TimeMark.allItems items)
    /\ (forall i, In i (TimeMark.allItems items) -> (stamp i <= stamp x)%Z)
    /\ (ok 0 = true ->
        TimeMark.main ok items file
        = {| TimeMark.posted := [x];
             TimeMark.disk := TimeMark.save x;
             TimeMark.crashed := false |}).
Proof.
  intros Ht Hne. pose proof (plan_first_run items file Ht) as Hpl.
  destruct (TimeMark.allItems items) as [|x rest] eqn:Hall; [contradiction|].
  simpl in Hpl. exists x. split; [assumption|].
  destruct (@last_planned_is_newest items file [] x Hpl) as [Hin Hmax].
  rewrite Hall in Hin, Hmax.
  repeat split; try assumption.
  intro Hok. unfold TimeMark.main. rewrite Hpl. simpl. now rewrite Hok.
Qed.

Lemma first_run_posts_the_newest_witness :
  TimeMark.plan (rev (Samples.feed 6)) Missing = [Some (Samples.entry 5)]
  /\ TimeMark.disk (TimeMark.main always_ok (rev (Samples.feed 6)) Missing)
     = TimeMark.save (Samples.entry 5).
Proof.
  destruct (first_run_posts_the_newest always_ok (rev (Samples.feed 6)) Missing)
    as (x & Hpl & _ & _ & Hrun); [reflexivity | discriminate |].
  split; [reflexivity|].
  rewrite (Hrun eq_refl). simpl. f_equal.
  vm_compute in Hpl. now injection Hpl as <-.
Defined.

(** X17. With a mark [t0] other than 0 in the state, the timestamp
    script publishes only eligible entries stamped strictly later than
    [t0], and when every call returns it publishes all of them: an
    entry stamped [t0] or earlier is never published again. *)
Theorem mark_separates_old_from_new
  (ok : nat -> bool) (items : list Item) (file : StateFile) (t0 : Z) :
  TimeMark.load_time file (TimeMark.allItems items) = Some t0 ->
  t0 <> 0%Z ->
  (forall x, In x (TimeMark.posted (TimeMark.main ok items file)) ->
             In x (TimeMark.allItems items) /\ (t0 < stamp x)%Z)
  /\ ((forall k, ok k = true) ->
      forall x, In x (TimeMark.allItems items) -> (t0 < stamp x)%Z ->
                In x (TimeMark.posted (TimeMark.main ok items file))).
Proof.
  intros Ht Hnz. unfold TimeMark.main.
  pose proof (plan_later_In items file) as Hin.
  rewrite (plan_later items file Ht Hnz) in *. rewrite timestamp_loop. simpl.
  split.
  - intros x Hx. apply delivered_in_plan in Hx.
    apply (Hin t0 x Ht Hnz). now apply in_map.
  - intros Hok x Hx Hlt. rewrite delivered_all by (intros; apply Hok).
    assert (Hs : In (Some x)
                    (map Some (array_sort oldest_first
                                 (filter (TimeMark.newer_than (Some t0))
                                    (TimeMark.allItems items)))))
      by (apply (Hin t0 x Ht Hnz); now split).
    apply in_map_iff in Hs as (y & Hy & Hs). now injection Hy as ->.
Qed.

Lemma mark_separates_old_from_new_witness :
  let file := TimeMark.save (Samples.entry 2) in
  TimeMark.posted (TimeMark.main always_ok (Samples.feed 5) file)
  = [Samples.entry 3; Samples.entry 4]
  /\ In (Samples.entry 3) (TimeMark.allItems (Samples.feed 5))
  /\ (2 < stamp (Samples.entry 3))%Z.
Proof.
  intro file. split; [reflexivity|].
  refine (proj1 (@mark_separates_old_from_new always_ok (Samples.feed 5) file 2 _ _)
            (Samples.entry 3) _).
  - reflexivity.
  - discriminate.
  - vm_compute. now left.
Defined.

(** X18. When every call of a run of the timestamp script returns, the
    feed has an eligible entry and no eligible entry is stamped with
    the instant 0, a second run on the same feed and the state left by
    the first plans nothing. *)
Theorem timestamp_rerun_plans_nothing
  (ok : nat -> bool) (items : list Item) (file : StateFile) :
  (forall k, ok k = true) ->
  TimeMark.allItems items <> [] ->
  (forall i, In i (TimeMark.allItems items) -> stamp i <> 0%Z) ->
  TimeMark.plan items (TimeMark.disk (TimeMark.main ok items file)) = [].
Proof.
  intros Hok Hne Hnz.
  destruct (plan_entries items file) as [(_ & Hnil & _) | (l & Hpl & _)];
    [contradiction|].
  assert (Hposted : TimeMark.posted (TimeMark.main ok items file) = l).
  { unfold TimeMark.main. rewrite Hpl, timestamp_loop. simpl.
    apply delivered_all. intros; apply Hok. }
  destruct (snoc_cases l) as [-> | (l' & y & ->)].
  - unfold TimeMark.main at 1. rewrite Hpl. simpl. exact Hpl.
  - rewrite map_app in Hpl. simpl in Hpl.
    destruct (@last_planned_is_newest items file _ y Hpl) as [Hy Hmax].
    destruct (@next_plan_is_newer ok items file l' y Hposted (Hnz y Hy)) as [_ Hnext].
    destruct (plan_entries items (TimeMark.disk (TimeMark.main ok items file)))
      as [(_ & Hnil & _) | (l2 & Hpl2 & _)]; [contradiction|].
    rewrite Hpl2 in *. destruct l2 as [|x l2]; [reflexivity|].
    destruct (proj1 (Hnext x) (or_introl eq_refl)) as [Hx Hlt].
    specialize (Hmax x Hx). lia.
Qed.

Lemma timestamp_rerun_plans_nothing_witness :
  TimeMark.plan (map Samples.entry [3; 1; 2])
    (TimeMark.disk (TimeMark.main always_ok (map Samples.entry [3; 1; 2]) Missing))
  = [].
Proof.
  apply timestamp_rerun_plans_nothing.
  - reflexivity.
  - discriminate.
  - intros i Hi. vm_compute in Hi.
    repeat (destruct Hi as [<- | Hi]; [discriminate|]). contradiction.
Defined.

(** X19. In the timestamp script an entry planned before an entry whose
    call returns is never planned again on the same feed, even when its
    own call threw: the mark has moved past it. Stated for entries
    stamped after the instant 0. *)
Theorem earlier_entry_is_dropped
  (ok : nat -> bool) (items : list Item) (file : StateFile)
  (i j : nat) (x y : Item) :
  nth_error (TimeMark.plan items file) i = Some (Some x) ->
  nth_error (TimeMark.plan items file) j = Some (Some y) ->
  i < j ->
  ok j = true ->
  (0 < stamp x)%Z ->
  ~ In (Some x) (TimeMark.plan items (TimeMark.disk (TimeMark.main ok items file))).
Proof.
  intros Hi Hj Hij Hok Hpos.
  destruct (plan_entries items file) as [(_ & _ & Hpl) | (l & Hpl & Hs)];
    rewrite Hpl in Hi, Hj.
  - destruct j as [|[|j]]; discriminate.
  - rewrite nth_error_map in Hi, Hj.
    destruct (nth_error l i) as [x'|] eqn:Hi'; [|discriminate].
    destruct (nth_error l j) as [y'|] eqn:Hj'; [|discriminate].
    injection Hi as ->. injection Hj as ->.
    assert (Hxy : (stamp x <= stamp y)%Z).
    { destruct (Z.le_gt_cases (stamp x) (stamp y)) as [H | H]; [assumption|].
      pose proof (sorted_index_order Hs _ _ Hj' Hi' H).
      lia. }
    assert (Hposted : TimeMark.posted (TimeMark.main ok items file) = delivered ok 0 l).
    { unfold TimeMark.main. now rewrite Hpl, timestamp_loop. }
    assert (Hyd : In y (delivered ok 0 l)) by (apply delivered_In; now exists j).
    destruct (snoc_cases (delivered ok 0 l)) as [Hnil | (before & z & Hd)];
      [rewrite Hnil in Hyd; contradiction|].
    assert (Hyz : (stamp y <= stamp z)%Z).
    { apply (@ascending_last _ stamp before z).
      - rewrite <- Hd. now apply delivered_ascending.
      - now rewrite <- Hd. }
    rewrite Hd in Hposted.
    destruct (@next_plan_is_newer ok items file before z Hposted) as [_ Hnext]; [lia|].
    intro Hin. apply Hnext in Hin as [_ Hlt]. lia.
Qed.

Lemma earlier_entry_is_dropped_witness :
  let items := Samples.feed 5 in
  let file := TimeMark.save (Samples.entry 1) in
  TimeMark.plan items file
  = [Some (Samples.entry 2); Some (Samples.entry 3); Some (Samples.entry 4)]
  /\ TimeMark.posted (TimeMark.main (fails_at 0) items file)
     = [Samples.entry 3; Samples.entry 4]
  /\ ~ In (Some (Samples.entry 2))
         (TimeMark.plan items (TimeMark.disk (TimeMark.main (fails_at 0) items file))).
Proof.
  intros items file. split; [reflexivity | split; [reflexivity|]].
  apply (@earlier_entry_is_dropped (fails_at 0) items file 0 1
           (Samples.entry 2) (Samples.entry 3));
    [reflexivity | reflexivity | lia | reflexivity | vm_compute; reflexivity].
Defined.

(** X20. The timestamp script ends with an exception exactly on a first
    run (or reset) on a feed without eligible entry, whatever the calls
    answer: the entry to post is then [undefined], and the handler that
    logs the failure reads its title. It then publishes nothing and
    writes nothing. *)
Theorem crash_only_on_empty_first_run
  (ok : nat -> bool) (items : list Item) (file : StateFile) :
  (TimeMark.crashed (TimeMark.main ok items file) = true
   <-> TimeMark.load_time file (TimeMark.allItems items) = Some 0%Z
       /\ TimeMark.allItems items = [])
  /\ (TimeMark.crashed (TimeMark.main ok items file) = true ->
      TimeMark.posted (TimeMark.main ok items file) = []
      /\ TimeMark.disk (TimeMark.main ok items file) = file).
Proof.
  unfold TimeMark.main.
  destruct (plan_entries items file) as [(Ht & Hnil & Hpl) | (l & Hpl & _)];
    rewrite Hpl.
  - simpl. split; [tauto | now split].
  - rewrite timestamp_loop. simpl.
    assert (Hc : match delivered ok 0 l with [] => false | _ :: _ => false end = false)
      by now destruct (delivered ok 0 l).
    rewrite Hc. split; [|discriminate]. split; [discriminate|].
    intros [Ht Hnil]. rewrite (plan_first_run items file Ht), Hnil in Hpl.
    simpl in Hpl. now destruct l.
Qed.

Lemma crash_only_on_empty_first_run_witness :
  TimeMark.crashed (TimeMark.main always_ok [Samples.undated 0] Missing) = true
  /\ TimeMark.disk (TimeMark.main always_ok [Samples.undated 0] Missing) = Missing.
Proof.
  destruct (crash_only_on_empty_first_run always_ok [Samples.undated 0] Missing)
    as [Hiff Hquiet].
  assert (Hc : TimeMark.crashed (TimeMark.main always_ok [Samples.undated 0] Missing)
               = true)
    by (apply Hiff; split; reflexivity).
  split; [exact Hc | exact (proj2 (Hquiet Hc))].
Defined.

(** * The runs of the first script of [src/README.md] *)

(** X21. The single-entry script publishes at most one entry per run,
    the first of the feed, and only when its link differs from the
    stored one; after a run that returns, a second run on the same feed
    publishes nothing and leaves the state as it is. *)
Theorem latest_is_posted_once
  (ok ok' : bool) (items : list Item) (file : StateFile) :
  (forall x,
      In x (Latest.posted (Latest.main ok items file)) ->
      Latest.posted (Latest.main ok items file) = [x]
      /\ nth_error items 0 = Some x
      /\ link x <> LastLink.load_last_link file)
  /\ (Latest.completed (Latest.main ok items file) = true ->
      Latest.posted (Latest.main ok' items (Latest.disk (Latest.main ok items file)))
      = []
      /\ Latest.disk (Latest.main ok' items (Latest.disk (Latest.main ok items file)))
         = Latest.disk (Latest.main ok items file)).
Proof.
  unfold Latest.main. destruct items as [|latestItem rest].
  - split; [intros x [] | now split].
  - destruct (strict_eq (link latestItem) (LastLink.load_last_link file)) eqn:Heq.
    + split; [intros x [] |]. intros _. simpl. now rewrite Heq.
    + destruct ok; simpl.
      * split.
        -- intros x [<- | []]. repeat split.
           intro H. apply strict_eq_eq in H. congruence.
        -- intros _. now rewrite strict_eq_refl.
      * split; [intros x [] | discriminate].
Qed.

Lemma latest_is_posted_once_witness :
  Latest.posted (Latest.main true (Samples.feed 3) Missing) = [Samples.entry 2]
  /\ Latest.posted
       (Latest.main true (Samples.feed 3)
          (Latest.disk (Latest.main true (Samples.feed 3) Missing))) = [].
Proof.
  destruct (latest_is_posted_once true true (Samples.feed 3) Missing)
    as [Hone Hagain].
  split.
  - apply (Hone (Samples.entry 2)). now left.
  - apply Hagain. reflexivity.
Defined.

(** * No link twice on the timeline *)

Lemma distinct_keys_filter (A B : Type) (key : A -> B) (l : list A) (keep : A -> bool) :
  NoDup (map key l) -> NoDup (map key (filter keep l)).
Proof.
  induction l as [|x l IH]; simpl; intro H; [constructor|].
  inversion H as [|? ? Hx Hl]; subst.
  destruct (keep x); simpl; [|now apply IH].
  constructor; [|now apply IH].
  intro Hin. apply Hx. apply in_map_iff in Hin as (y & Hy & Hin).
  apply filter_In in Hin as [Hin _]. rewrite <- Hy. now apply in_map.
Qed.

Lemma distinct_keys_delivered (B : Type) (key : Item -> B) (ok : nat -> bool)
  (l : list Item) :
  forall k, NoDup (map key l) -> NoDup (map key (delivered ok k l)).
Proof.
  induction l as [|x l IH]; simpl; intros k H; [constructor|].
  inversion H as [|? ? Hx Hl]; subst.
  destruct (ok k); simpl; [|now apply IH].
  constructor; [|now apply IH].
  intro Hin. apply Hx. apply in_map_iff in Hin as (y & Hy & Hin).
  apply delivered_in_plan in Hin. rewrite <- Hy. now apply in_map.
Qed.

(** X22. When the eligible entries of the feed carry pairwise distinct
    links, a run of the history script publishes no link twice,
    whatever the state, the order of the feed and the outcome of the
    calls. *)
Theorem no_link_published_twice
  (ok : nat -> bool) (items : list Item) (file : StateFile) :
  NoDup (map link_text (IndexJs.allValidItems items)) ->
  NoDup (map link_text (IndexJs.posted (IndexJs.main ok items file))).
Proof.
  intro Hnd. rewrite main_posted. apply distinct_keys_delivered.
  unfold IndexJs.plan.
  eapply Permutation_NoDup;
    [apply Permutation_map, Permutation_sym, array_sort_perm|].
  destruct (select_cases items (IndexJs.load_history file)) as [Hs | (_ & _ & Hs)];
    rewrite Hs; simpl.
  - now apply distinct_keys_filter.
  - destruct (IndexJs.allValidItems items) as [|x v]; simpl; [constructor|].
    constructor; [tauto | constructor].
Qed.

Lemma no_link_published_twice_witness :
  NoDup (map link_text
           (IndexJs.posted
              (IndexJs.main (fails_at 1) (Samples.feed 4) (legacy_file Samples.old_link)))).
Proof.
  apply no_link_published_twice.
  vm_compute. repeat (constructor; [simpl; intuition discriminate|]). constructor.
Defined.
